(** * Snowflake identifier generator: model and verification

    The repository holds two versions of [snowflake_generator.go]:
    - the two-word version ([Split] below), which keeps the last timestamp
      and the sequence number in two separate atomic [int64] words and
      fails at once when the clock is behind;
    - the packed version ([Packed] below), which keeps both in one atomic
      word [(timestamp << 12) | sequence] and polls the clock for 15 ms
      before it reports a rollback.

    Go's [int64] is modelled as [Z] with two's-complement wrap-around
    written out ([Int64.wrap]); [time.Now()] is an oracle, a list of
    readings consumed one per call; [time.Sleep] is logged. *)

From Stdlib Require Import ZArith List Lia Bool.
Import ListNotations.
Local Open Scope Z_scope.

(** ** 64-bit signed integers *)

Module Int64.

Definition wrap (z : Z) : Z := (z + 2 ^ 63) mod 2 ^ 64 - 2 ^ 63.

Definition in_range (z : Z) : Prop := - 2 ^ 63 <= z < 2 ^ 63.

Definition add (x y : Z) : Z := wrap (x + y).
Definition sub (x y : Z) : Z := wrap (x - y).
(** [x << n]: the bits shifted out at the top are lost. *)
Definition shl (x n : Z) : Z := wrap (Z.shiftl x n).
(** [x >> n] on a signed integer is the arithmetic shift. *)
Definition shr (x n : Z) : Z := Z.shiftr x n.

End Int64.

(** ** [time.Time], [time.Duration] and the environment *)

(** A reading of [time.Now()]: the wall clock (nanoseconds since the Unix
    epoch) and the monotonic clock (nanoseconds).  [UnixMilli] reads the
    wall clock, [Before] compares monotonic readings, as Go does for two
    values that both carry one. *)
Record Time : Set := mkTime { wallNano : Z; monoNano : Z }.

Definition Millisecond : Z := 1000000.

Definition UnixMilli (t : Time) : Z := wallNano t / 1000000.

Definition Add (t : Time) (d : Z) : Time :=
  {| wallNano := wallNano t + d; monoNano := monoNano t + d |}.

Definition Before (t u : Time) : bool := monoNano t <? monoNano u.

(** A reading taken [ms] milliseconds after the Unix epoch with monotonic
    clock [mono]. *)
Definition at_ms (ms mono : Z) : Time :=
  {| wallNano := ms * 1000000; monoNano := mono |}.

(** What a call sees of the world: the readings [time.Now()] will give,
    in order, and the durations slept so far, most recent first. *)
Record World : Set := mkWorld { clock : list Time; slept : list Z }.

(** ** Package constants and errors *)

Definition TwitterEpoch : Z := 1288834974657.
Definition DiscordEpoch : Z := 1420070400000.

Definition snowflakeTimestampBits : Z := 41.
Definition snowflakeNodeIdBits : Z := 10.
Definition snowflakeSequenceBits : Z := 12.

Definition snowflakeNodeIdShift : Z := snowflakeSequenceBits.
Definition snowflakeTimestampShift : Z :=
  snowflakeSequenceBits + snowflakeNodeIdBits.
Definition snowflakeSequenceMask : Z :=
  Z.shiftl 1 snowflakeSequenceBits - 1.

Inductive error : Set :=
| ErrInvalidNodeId
| ErrGenerationClockRollback.

(** A Go result [(value, err)]; [None] is [nil]. *)
Definition result (A : Type) : Type := (A * option error)%type.

(** [atomic.CompareAndSwapInt64(&w, old, new)] on a word holding [cur]:
    whether it swapped, and the word afterwards. *)
Definition CompareAndSwap (cur old new : Z) : bool * Z :=
  if cur =? old then (true, new) else (false, cur).

(** The last line of [Generate]:
    [(ts << snowflakeTimestampShift) | s.shiftedNid | seq]. *)
Definition pack (ts shiftedNid seq : Z) : Z :=
  Z.lor (Z.lor (Int64.shl ts snowflakeTimestampShift) shiftedNid) seq.

(** [now - s.tsepoch] for a clock reading. *)
Definition relative (epoch : Z) (t : Time) : Z :=
  Int64.sub (UnixMilli t) epoch.

(** How one run of the [for] loop of [Generate] ends. *)
Inductive outcome (G : Type) : Type :=
| Minted (ts seq : Z) (g : G) (w : World)
    (** the atomic update succeeded; [ts] and [seq] are packed and returned *)
| Failed (e : error) (g : G) (w : World)
| Starved.
    (** the oracle has no reading left: the model knows no more *)
Arguments Minted {G} ts seq g w.
Arguments Failed {G} e g w.
Arguments Starved {G}.

(** How [MustGenerate] ends: it returns the identifier, or it panics with
    the error of [Generate]. *)
Inductive must (A : Type) : Type :=
| Returned (a : A)
| Panicked (e : error).
Arguments Returned {A} a.
Arguments Panicked {A} e.

(** ** The two-word generator (src/snowflake_generator.go) *)

Module Split.

Record SnowflakeGenerator : Set := mkGen {
  tsepoch : Z;
  shiftedNid : Z;
  st : Time;      (* start time *)
  lts : Z;        (* atomic int64, last timestamp used *)
  seq : Z         (* atomic int64, seq number *)
}.

Definition set_lts (g : SnowflakeGenerator) (v : Z) : SnowflakeGenerator :=
  {| tsepoch := tsepoch g; shiftedNid := shiftedNid g; st := st g;
     lts := v; seq := seq g |}.

Definition set_seq (g : SnowflakeGenerator) (v : Z) : SnowflakeGenerator :=
  {| tsepoch := tsepoch g; shiftedNid := shiftedNid g; st := st g;
     lts := lts g; seq := v |}.

(** [now] is the reading of [time.Now()] stored in [st]. *)
Definition NewGenerator (nodeId timestampEpoch : Z) (now : Time)
  : result (option SnowflakeGenerator) :=
  if nodeId >=? Z.shiftl 1 snowflakeNodeIdBits then
    (None, Some ErrInvalidNodeId)
  else
    (Some {| tsepoch := timestampEpoch;
             shiftedNid := Int64.shl nodeId snowflakeNodeIdShift;
             st := now;
             seq := 0;
             lts := 0 |}, None).

(** The [for] loop of [Generate]; every round takes one reading. *)
Fixpoint loop (g : SnowflakeGenerator) (clk : list Time) (sl : list Z)
  : outcome SnowflakeGenerator :=
  match clk with
  | [] => Starved
  | t :: clk' =>
    let relativeTs := relative (tsepoch g) t in
    let lastTs := lts g in
    let seq0 := seq g in
    if relativeTs <? lastTs then
      Failed ErrGenerationClockRollback g (mkWorld clk' sl)
    else if relativeTs =? lastTs then
      if seq0 =? snowflakeSequenceMask then
        loop g clk' (Millisecond :: sl)
      else
        match CompareAndSwap (seq g) seq0 (Int64.add seq0 1) with
        | (false, _) => loop g clk' sl
        | (true, v) =>
          Minted relativeTs (Int64.add seq0 1) (set_seq g v) (mkWorld clk' sl)
        end
    else
      match CompareAndSwap (lts g) lastTs relativeTs with
      | (false, _) => loop g clk' sl
      | (true, v) =>
        Minted relativeTs 0 (set_seq (set_lts g v) 0) (mkWorld clk' sl)
      end
  end.

Definition Generate (g : SnowflakeGenerator) (w : World)
  : option (result Z * SnowflakeGenerator * World) :=
  match loop g (clock w) (slept w) with
  | Minted ts sq g' w' => Some ((pack ts (shiftedNid g) sq, None), g', w')
  | Failed e g' w' => Some ((0, Some e), g', w')
  | Starved => None
  end.

(** MustGenerate panics on error *)
Definition MustGenerate (g : SnowflakeGenerator) (w : World)
  : option (must Z * SnowflakeGenerator * World) :=
  match Generate g w with
  | Some ((id, None), g', w') => Some (Returned id, g', w')
  | Some ((_, Some err), g', w') => Some (Panicked err, g', w')
  | None => None
  end.

End Split.

(** ** The packed generator (src/unnamed/part_001) *)

Module Packed.

Record SnowflakeGenerator : Set := mkGen {
  tsepoch : Z;
  shiftedNid : Z;
  state : Z       (* packed: (timestamp << 12) | sequence *)
}.

Definition set_state (g : SnowflakeGenerator) (v : Z) : SnowflakeGenerator :=
  {| tsepoch := tsepoch g; shiftedNid := shiftedNid g; state := v |}.

Definition NewGenerator (nodeId timestampEpoch : Z)
  : result (option SnowflakeGenerator) :=
  if nodeId >=? Z.shiftl 1 snowflakeNodeIdBits then
    (None, Some ErrInvalidNodeId)
  else
    (Some {| tsepoch := timestampEpoch;
             shiftedNid := Int64.shl nodeId snowflakeNodeIdShift;
             state := 0 |}, None).

(** The timestamp and the sequence number the state word holds, as
    [Generate] decodes them (lines 65-66). *)
Definition lastTs (g : SnowflakeGenerator) : Z :=
  Int64.shr (state g) snowflakeSequenceBits.
Definition lastSeq (g : SnowflakeGenerator) : Z :=
  Z.land (state g) snowflakeSequenceMask.

(** The inner loop [for time.Now().Before(deadline) { ... }]: two readings
    a round, one for the condition and one for [now].  Gives the last
    [relativeTs] and what is left of the world. *)
Fixpoint poll (epoch : Z) (deadline : Time) (prevTs relativeTs : Z)
    (clk : list Time) (sl : list Z) : option (Z * World) :=
  match clk with
  | [] => None
  | c :: clk1 =>
    if Before c deadline then
      match clk1 with
      | [] => None
      | t :: clk2 =>
        let relativeTs := relative epoch t in
        if relativeTs >=? prevTs then Some (relativeTs, mkWorld clk2 sl)
        else poll epoch deadline prevTs relativeTs clk2 (Millisecond :: sl)
      end
    else Some (relativeTs, mkWorld clk1 sl)
  end.

(** The rollback branch, lines 70-83: the deadline, the polling, and the
    verdict.  [inl] is the [relativeTs] to go on with. *)
Definition await (epoch prevTs relativeTs : Z) (clk : list Time)
    (sl : list Z) : option ((Z + error) * World) :=
  match clk with
  | [] => None
  | d :: clk1 =>
    let deadline := Add d (15 * Millisecond) in
    match poll epoch deadline prevTs relativeTs clk1 sl with
    | None => None
    | Some (relativeTs, w) =>
      if relativeTs <? prevTs then Some (inr ErrGenerationClockRollback, w)
      else Some (inl relativeTs, w)
    end
  end.

(** The [for] loop of [Generate]; [fuel] bounds the rounds. *)
Fixpoint loop (fuel : nat) (g : SnowflakeGenerator) (clk : list Time)
    (sl : list Z) : outcome SnowflakeGenerator :=
  match fuel with
  | O => Starved
  | S fuel' =>
    match clk with
    | [] => Starved
    | t :: clk0 =>
      let relativeTs := relative (tsepoch g) t in
      let prev := state g in
      let prevTs := Int64.shr prev snowflakeSequenceBits in
      let prevSeq := Z.land prev snowflakeSequenceMask in
      match (if relativeTs <? prevTs
             then await (tsepoch g) prevTs relativeTs clk0 sl
             else Some (inl relativeTs, mkWorld clk0 sl)) with
      | None => Starved
      | Some (inr e, w) => Failed e g w
      | Some (inl relativeTs, w) =>
        (* lines 97-102, for the [nextTs] and [nextSeq] chosen above them *)
        let commit (nextTs nextSeq : Z) :=
          let newState :=
            Z.lor (Int64.shl nextTs snowflakeSequenceBits) nextSeq in
          match CompareAndSwap (state g) prev newState with
          | (true, v) => Minted nextTs nextSeq (set_state g v) w
          | (false, _) => loop fuel' g (clock w) (slept w)
          end in
        if relativeTs =? prevTs then
          if prevSeq =? snowflakeSequenceMask then
            loop fuel' g (clock w) (Millisecond :: slept w)
          else commit prevTs (Int64.add prevSeq 1)
        else commit relativeTs 0
      end
    end
  end.

(** Every round takes a reading, so one more round than there are readings
    is enough. *)
Definition Generate (g : SnowflakeGenerator) (w : World)
  : option (result Z * SnowflakeGenerator * World) :=
  match loop (S (length (clock w))) g (clock w) (slept w) with
  | Minted ts sq g' w' => Some ((pack ts (shiftedNid g) sq, None), g', w')
  | Failed e g' w' => Some ((0, Some e), g', w')
  | Starved => None
  end.

(** MustGenerate panics on error *)
Definition MustGenerate (g : SnowflakeGenerator) (w : World)
  : option (must Z * SnowflakeGenerator * World) :=
  match Generate g w with
  | Some ((id, None), g', w') => Some (Returned id, g', w')
  | Some ((_, Some err), g', w') => Some (Panicked err, g', w')
  | None => None
  end.

End Packed.

(** ** Concurrent callers

    Each caller runs [Generate] again and again; a step is one access to
    the shared words, one reading of the clock or one sleep, together with
    the local computation that follows it.  A schedule names, step by
    step, the caller that moves and the reading [time.Now()] gives if the
    step asks for one. *)

Inductive event : Set :=
| EvMinted (tid : nat) (ts seq id : Z)
    (** the caller won the compare-and-swap after which it returns [id];
        the history lists the calls in the order of these wins *)
| EvFailed (tid : nat) (e : error).

Definition upd {A : Type} (f : nat -> A) (i : nat) (a : A) : nat -> A :=
  fun j => if Nat.eqb j i then a else f j.

(** The calls that returned an identifier, most recent first: timestamp,
    sequence number and identifier. *)
Definition mints (h : list event) : list (Z * Z * Z) :=
  flat_map (fun ev => match ev with
                      | EvMinted _ ts sq id => [(ts, sq, id)]
                      | EvFailed _ _ => []
                      end) h.

(** Their fields and their identifiers, oldest first. *)
Definition minted (h : list event) : list (Z * Z) :=
  rev (map fst (mints h)).

Definition minted_ids (h : list event) : list Z :=
  rev (map snd (mints h)).

Module SplitMachine.
Import Split.

(** Where a caller stands, with the local variables that are live. *)
Inductive pc : Set :=
| AtNow                               (* line 69 *)
| AtLoadLts (relativeTs : Z)          (* line 72 *)
| AtLoadSeq (relativeTs lastTs : Z)   (* line 73 *)
| AtSleep                             (* line 81 *)
| AtCasSeq (relativeTs seq : Z)       (* line 85 *)
| AtCasLts (relativeTs lastTs : Z)    (* line 91 *)
| AtStoreSeq.                         (* line 94 *)

Record config : Type := mkConfig {
  gen : SnowflakeGenerator;
  pcs : nat -> pc;
  history : list event          (* most recent first *)
}.

Definition init (g : SnowflakeGenerator) : config :=
  {| gen := g; pcs := fun _ => AtNow; history := [] |}.

Definition step (c : config) (tid : nat) (now : Time) : config :=
  let g := gen c in
  let goto p := mkConfig g (upd (pcs c) tid p) (history c) in
  match pcs c tid with
  | AtNow => goto (AtLoadLts (relative (tsepoch g) now))
  | AtLoadLts relativeTs => goto (AtLoadSeq relativeTs (lts g))
  | AtLoadSeq relativeTs lastTs =>
    let seq0 := seq g in
    if relativeTs <? lastTs then
      mkConfig g (upd (pcs c) tid AtNow)
        (EvFailed tid ErrGenerationClockRollback :: history c)
    else if relativeTs =? lastTs then
      if seq0 =? snowflakeSequenceMask then goto AtSleep
      else goto (AtCasSeq relativeTs seq0)
    else goto (AtCasLts relativeTs lastTs)
  | AtSleep => goto AtNow
  | AtCasSeq relativeTs seq0 =>
    match CompareAndSwap (seq g) seq0 (Int64.add seq0 1) with
    | (false, _) => goto AtNow
    | (true, v) =>
      let seq1 := Int64.add seq0 1 in
      mkConfig (set_seq g v) (upd (pcs c) tid AtNow)
        (EvMinted tid relativeTs seq1 (pack relativeTs (shiftedNid g) seq1)
           :: history c)
    end
  | AtCasLts relativeTs lastTs =>
    match CompareAndSwap (lts g) lastTs relativeTs with
    | (false, _) => goto AtNow
    | (true, v) =>
      mkConfig (set_lts g v) (upd (pcs c) tid AtStoreSeq)
        (EvMinted tid relativeTs 0 (pack relativeTs (shiftedNid g) 0)
           :: history c)
    end
  | AtStoreSeq => mkConfig (set_seq g 0) (upd (pcs c) tid AtNow) (history c)
  end.

Definition run (c : config) (sched : list (nat * Time)) : config :=
  fold_left (fun c s => step c (fst s) (snd s)) sched c.

End SplitMachine.

Module PackedMachine.
Import Packed.

Inductive pc : Set :=
| AtNow                                               (* line 61 *)
| AtLoad (relativeTs : Z)                             (* line 64 *)
| AtDeadline (relativeTs prev : Z)                    (* line 71 *)
| AtBefore (relativeTs prev : Z) (deadline : Time)    (* line 72 *)
| AtPoll (prev : Z) (deadline : Time)                 (* line 73 *)
| AtPollSleep (relativeTs prev : Z) (deadline : Time) (* line 78 *)
| AtSleep                                             (* line 87 *)
| AtCas (prev nextTs nextSeq : Z).                    (* line 99 *)

Record config : Type := mkConfig {
  gen : SnowflakeGenerator;
  pcs : nat -> pc;
  history : list event          (* most recent first *)
}.

Definition init (g : SnowflakeGenerator) : config :=
  {| gen := g; pcs := fun _ => AtNow; history := [] |}.

(** Lines 85-97: where the caller goes once [relativeTs >= prevTs]. *)
Definition choose (relativeTs prev : Z) : pc :=
  let prevTs := Int64.shr prev snowflakeSequenceBits in
  let prevSeq := Z.land prev snowflakeSequenceMask in
  if relativeTs =? prevTs then
    if prevSeq =? snowflakeSequenceMask then AtSleep
    else AtCas prev prevTs (Int64.add prevSeq 1)
  else AtCas prev relativeTs 0.

Definition step (c : config) (tid : nat) (now : Time) : config :=
  let g := gen c in
  let goto p := mkConfig g (upd (pcs c) tid p) (history c) in
  (* lines 80-83, then on to line 85 *)
  let verdict relativeTs prev :=
    if relativeTs <? Int64.shr prev snowflakeSequenceBits then
      mkConfig g (upd (pcs c) tid AtNow)
        (EvFailed tid ErrGenerationClockRollback :: history c)
    else goto (choose relativeTs prev) in
  match pcs c tid with
  | AtNow => goto (AtLoad (relative (tsepoch g) now))
  | AtLoad relativeTs =>
    let prev := state g in
    if relativeTs <? Int64.shr prev snowflakeSequenceBits
    then goto (AtDeadline relativeTs prev)
    else goto (choose relativeTs prev)
  | AtDeadline relativeTs prev =>
    goto (AtBefore relativeTs prev (Add now (15 * Millisecond)))
  | AtBefore relativeTs prev deadline =>
    if Before now deadline then goto (AtPoll prev deadline)
    else verdict relativeTs prev
  | AtPoll prev deadline =>
    let relativeTs := relative (tsepoch g) now in
    if relativeTs >=? Int64.shr prev snowflakeSequenceBits
    then verdict relativeTs prev
    else goto (AtPollSleep relativeTs prev deadline)
  | AtPollSleep relativeTs prev deadline =>
    goto (AtBefore relativeTs prev deadline)
  | AtSleep => goto AtNow
  | AtCas prev nextTs nextSeq =>
    let newState :=
      Z.lor (Int64.shl nextTs snowflakeSequenceBits) nextSeq in
    match CompareAndSwap (state g) prev newState with
    | (true, v) =>
      mkConfig (set_state g v) (upd (pcs c) tid AtNow)
        (EvMinted tid nextTs nextSeq (pack nextTs (shiftedNid g) nextSeq)
           :: history c)
    | (false, _) => goto AtNow
    end
  end.

Definition run (c : config) (sched : list (nat * Time)) : config :=
  fold_left (fun c s => step c (fst s) (snd s)) sched c.

End PackedMachine.

(** ** Vocabulary of the specification *)

(** The identifier layout of the data model: the three fields, each
    within its width, or-ed together at their positions. *)
Definition layout (id ts nodeId seq : Z) : Prop :=
  id = Z.lor (Z.lor (Z.shiftl ts snowflakeTimestampShift)
                    (Z.shiftl nodeId snowflakeNodeIdShift)) seq /\
  0 <= seq < 2 ^ snowflakeSequenceBits /\
  0 <= nodeId < 2 ^ snowflakeNodeIdBits /\
  0 <= ts < 2 ^ snowflakeTimestampBits.

(** The field accessors the tests use on an identifier. *)
Definition id_ts (id : Z) : Z := Int64.shr id snowflakeTimestampShift.
Definition id_node (id : Z) : Z :=
  Z.land (Int64.shr id snowflakeNodeIdShift)
         (Z.shiftl 1 snowflakeNodeIdBits - 1).
Definition id_seq (id : Z) : Z := Z.land id snowflakeSequenceMask.

(** [absDiff] of the tests (src/snowflake_generator_test.go). *)
Definition absDiff (a b : Z) : Z :=
  if a >? b then Int64.sub a b else Int64.sub b a.

(** [q] may come right after [p]: the same timestamp and the next
    sequence number, or a later timestamp. *)
Definition follows (p q : Z * Z) : Prop :=
  (fst q = fst p /\ snd q = snd p + 1) \/ fst p < fst q.

(** Non-decreasing in lexicographic order. *)
Definition lex_le (p q : Z * Z) : Prop :=
  fst p < fst q \/ (fst p = fst q /\ snd p <= snd q).

(** Every element of the list is related to the next one. *)
Fixpoint chain {A : Type} (R : A -> A -> Prop) (l : list A) : Prop :=
  match l with
  | p :: (q :: _) as l' => R p q /\ chain R l'
  | _ => True
  end.

(** All readings of a clock give a relative timestamp that fits the 41
    bits of the layout. *)
Definition timely (epoch : Z) (clk : list Time) : Prop :=
  Forall (fun t => relative epoch t < 2 ^ snowflakeTimestampBits) clk.

(** The generators that calls of [Generate], one after the other, lead
    to from [g0], when the clocks they see satisfy [ok]. *)
Inductive Split_reachable (ok : list Time -> Prop)
    (g0 : Split.SnowflakeGenerator) : Split.SnowflakeGenerator -> Prop :=
| Split_reach_new : Split_reachable ok g0 g0
| Split_reach_call g w r g' w' :
    Split_reachable ok g0 g -> ok (clock w) ->
    Split.Generate g w = Some (r, g', w') ->
    Split_reachable ok g0 g'.

Inductive Packed_reachable (ok : list Time -> Prop)
    (g0 : Packed.SnowflakeGenerator) : Packed.SnowflakeGenerator -> Prop :=
| Packed_reach_new : Packed_reachable ok g0 g0
| Packed_reach_call g w r g' w' :
    Packed_reachable ok g0 g -> ok (clock w) ->
    Packed.Generate g w = Some (r, g', w') ->
    Packed_reachable ok g0 g'.

(** What holds of a generator made for [nodeId] as long as the clock is
    [timely]. *)
Definition Split_inv (nodeId : Z) (g : Split.SnowflakeGenerator) : Prop :=
  0 <= nodeId < 2 ^ snowflakeNodeIdBits /\
  Split.shiftedNid g = nodeId * 2 ^ snowflakeNodeIdShift /\
  0 <= Split.lts g < 2 ^ snowflakeTimestampBits /\
  0 <= Split.seq g <= snowflakeSequenceMask.

Definition Packed_inv (nodeId : Z) (g : Packed.SnowflakeGenerator) : Prop :=
  0 <= nodeId < 2 ^ snowflakeNodeIdBits /\
  Packed.shiftedNid g = nodeId * 2 ^ snowflakeNodeIdShift /\
  0 <= Packed.state g
    < 2 ^ (snowflakeTimestampBits + snowflakeSequenceBits).

(** The two generators hold the same configuration and the same last
    timestamp and sequence number. *)
Definition corresponds (gs : Split.SnowflakeGenerator)
    (gp : Packed.SnowflakeGenerator) : Prop :=
  Split.tsepoch gs = Packed.tsepoch gp /\
  Split.shiftedNid gs = Packed.shiftedNid gp /\
  0 <= Split.lts gs < 2 ^ snowflakeTimestampBits /\
  0 <= Split.seq gs <= snowflakeSequenceMask /\
  Packed.state gp
    = Split.lts gs * 2 ^ snowflakeSequenceBits + Split.seq gs.

(** A minted call before another in the order of the winning
    compare-and-swaps: its fields are followed by the other's, and its
    identifier is the smaller one. *)
Definition precedes (m1 m2 : Z * Z * Z) : Prop :=
  follows (fst m1) (fst m2) /\ snd m1 < snd m2.

(** What the local variables of a caller of the packed generator satisfy
    where it stands, as long as the clock is timely. *)
Definition local_ok (p : PackedMachine.pc) : Prop :=
  match p with
  | PackedMachine.AtLoad r
  | PackedMachine.AtDeadline r _
  | PackedMachine.AtBefore r _ _
  | PackedMachine.AtPollSleep r _ _ => r < 2 ^ snowflakeTimestampBits
  | PackedMachine.AtCas prev nextTs nextSeq =>
    (nextTs = Int64.shr prev snowflakeSequenceBits /\
     nextSeq = Z.land prev snowflakeSequenceMask + 1 /\
     Z.land prev snowflakeSequenceMask <> snowflakeSequenceMask) \/
    (Int64.shr prev snowflakeSequenceBits < nextTs
       < 2 ^ snowflakeTimestampBits /\
     nextSeq = 0)
  | _ => True
  end.

(** What holds of the packed generator and its callers at every step. *)
Definition machine_inv (nodeId epoch : Z) (c : PackedMachine.config)
  : Prop :=
  let g := PackedMachine.gen c in
  Packed_inv nodeId g /\
  Packed.tsepoch g = epoch /\
  (forall tid, local_ok (PackedMachine.pcs c tid)) /\
  chain (fun a b => precedes b a) (mints (PackedMachine.history c)) /\
  Forall (fun m => layout (snd m) (fst (fst m)) nodeId (snd (fst m)))
    (mints (PackedMachine.history c)) /\
  match mints (PackedMachine.history c) with
  | m :: _ => fst m = (Packed.lastTs g, Packed.lastSeq g)
  | [] => True
  end.

(** What holds of the two-word generator and its callers at every step,
    however they interleave: the sequence number stays within 12 bits. *)
Definition split_machine_inv (c : SplitMachine.config) : Prop :=
  0 <= Split.seq (SplitMachine.gen c) <= snowflakeSequenceMask /\
  (forall tid,
     match SplitMachine.pcs c tid with
     | SplitMachine.AtCasSeq _ sq => 0 <= sq < snowflakeSequenceMask
     | _ => True
     end) /\
  Forall (fun m => 0 <= snd (fst m) <= snowflakeSequenceMask)
    (mints (SplitMachine.history c)).

(** The readings that rounds of polling take: for each round the one
    compared with the deadline, then the one of the clock. *)
Definition flat_rounds (rounds : list (Time * Time)) : list Time :=
  flat_map (fun ct => [fst ct; snd ct]) rounds.

(** Every round is within the deadline and finds the clock behind
    [prevTs]. *)
Definition behind (epoch : Z) (deadline : Time) (prevTs : Z)
    (rounds : list (Time * Time)) : bool :=
  forallb (fun ct => Before (fst ct) deadline
                     && (relative epoch (snd ct) <? prevTs)) rounds.

(** The monotonic clock over rounds of polling that start no earlier than
    [m]: within a round it does not go back, and the millisecond of sleep
    between two rounds has passed on it. *)
Fixpoint paced (m : Z) (rounds : list (Time * Time)) : bool :=
  match rounds with
  | [] => true
  | ct :: rounds' =>
    (m <=? monoNano (fst ct)) && (monoNano (fst ct) <=? monoNano (snd ct))
    && paced (monoNano (snd ct) + Millisecond) rounds'
  end.

(** No reading of the clock is behind the timestamp [ts]. *)
Definition steady (epoch ts : Z) (clk : list Time) : Prop :=
  Forall (fun t => ts <= relative epoch t) clk.

(** What holds of the two-word generator started at [g0] and its callers
    at every step, however they interleave: the recorded timestamp has not
    gone back, and no call returns a timestamp outside what was recorded
    at the start and what is recorded now. *)
Definition split_time_inv (g0 : Split.SnowflakeGenerator)
    (c : SplitMachine.config) : Prop :=
  let now := Split.lts (SplitMachine.gen c) in
  Split.lts g0 <= now /\
  (forall tid,
     match SplitMachine.pcs c tid with
     | SplitMachine.AtLoadSeq _ l => Split.lts g0 <= l <= now
     | SplitMachine.AtCasSeq r _ => Split.lts g0 <= r <= now
     | SplitMachine.AtCasLts r l => Split.lts g0 <= l <= now /\ l < r
     | _ => True
     end) /\
  Forall (fun m => Split.lts g0 <= fst (fst m) <= now)
    (mints (SplitMachine.history c)).

(** ** Sample generators and worlds *)

(** A two-word and a packed generator for node 1 on the Twitter epoch,
    with a given last timestamp and sequence number. *)
Definition split_at (ts sq : Z) : Split.SnowflakeGenerator :=
  {| Split.tsepoch := TwitterEpoch; Split.shiftedNid := 4096;
     Split.st := at_ms TwitterEpoch 0; Split.lts := ts; Split.seq := sq |}.

Definition packed_at (ts sq : Z) : Packed.SnowflakeGenerator :=
  {| Packed.tsepoch := TwitterEpoch; Packed.shiftedNid := 4096;
     Packed.state := ts * 4096 + sq |}.

(** A reading [ms] milliseconds after the Twitter epoch, with the
    monotonic clock at [mono] nanoseconds. *)
Definition tick (ms mono : Z) : Time := at_ms (TwitterEpoch + ms) mono.

(** What [NewGenerator(-1, TwitterEpoch)] returns. *)
Definition packed_minus_one : Packed.SnowflakeGenerator :=
  {| Packed.tsepoch := TwitterEpoch; Packed.shiftedNid := -4096;
     Packed.state := 0 |}.

Definition split_minus_one : Split.SnowflakeGenerator :=
  {| Split.tsepoch := TwitterEpoch; Split.shiftedNid := -4096;
     Split.st := at_ms TwitterEpoch 0; Split.lts := 0; Split.seq := 0 |}.

(** Two callers of one generator. *)
Definition caller_a : nat := 0.
Definition caller_b : nat := 1.

(** Both callers in millisecond 10 of a new two-word generator: [caller_a]
    wins the compare-and-swap on [lts] and is held before it stores the
    sequence number; [caller_b] takes sequence 1; [caller_a] stores 0;
    [caller_b] calls again. *)
Definition schedule_collide : list (nat * Time) :=
  [ (caller_a, tick 10 0); (caller_a, tick 10 0); (caller_a, tick 10 0);
    (caller_a, tick 10 0);            (* now, lts, seq, CAS on lts *)
    (caller_b, tick 10 0); (caller_b, tick 10 0); (caller_b, tick 10 0);
    (caller_b, tick 10 0);            (* now, lts, seq, CAS on seq *)
    (caller_a, tick 10 0);            (* store of seq *)
    (caller_b, tick 10 0); (caller_b, tick 10 0); (caller_b, tick 10 0);
    (caller_b, tick 10 0) ].          (* now, lts, seq, CAS on seq *)

(** [caller_b] makes two calls in millisecond 10; [caller_a] reads the
    clock and both words there and is held before its compare-and-swap;
    [caller_b] makes two calls in millisecond 11; [caller_a] goes on. *)
Definition schedule_backwards : list (nat * Time) :=
  [ (caller_b, tick 10 0); (caller_b, tick 10 0); (caller_b, tick 10 0);
    (caller_b, tick 10 0); (caller_b, tick 10 0);
                                      (* now, lts, seq, CAS on lts, store *)
    (caller_b, tick 10 0); (caller_b, tick 10 0); (caller_b, tick 10 0);
    (caller_b, tick 10 0);            (* now, lts, seq, CAS on seq *)
    (caller_a, tick 10 0); (caller_a, tick 10 0); (caller_a, tick 10 0);
                                      (* now, lts, seq *)
    (caller_b, tick 11 0); (caller_b, tick 11 0); (caller_b, tick 11 0);
    (caller_b, tick 11 0); (caller_b, tick 11 0);
                                      (* now, lts, seq, CAS on lts, store *)
    (caller_b, tick 11 0); (caller_b, tick 11 0); (caller_b, tick 11 0);
    (caller_b, tick 11 0);            (* now, lts, seq, CAS on seq *)
    (caller_a, tick 11 0) ].          (* CAS on seq *)

(** Two callers of one packed generator in millisecond 10: both read the
    clock and the state word, [caller_a] wins the compare-and-swap,
    [caller_b] loses it and goes round again. *)
Definition schedule_packed : list (nat * Time) :=
  [ (caller_a, tick 10 0); (caller_a, tick 10 0);    (* now, load *)
    (caller_b, tick 10 0); (caller_b, tick 10 0);    (* now, load *)
    (caller_a, tick 10 0);                           (* CAS, won *)
    (caller_b, tick 10 0);                           (* CAS, lost *)
    (caller_b, tick 10 0); (caller_b, tick 10 0);
    (caller_b, tick 10 0) ].                         (* now, load, CAS *)

(** Fifteen rounds of polling with the clock stuck in millisecond 4: the
    clock is read 0.1 microseconds after each deadline check, and the next
    check comes 1 ms after that. *)
Definition fifteen_rounds : list (Time * Time) :=
  map (fun k => (tick 4 (100 + k * 1000100), tick 4 (200 + k * 1000100)))
    [0; 1; 2; 3; 4; 5; 6; 7; 8; 9; 10; 11; 12; 13; 14].

(** [n] calls of [Generate] one after the other, each with the clock at
    [t]: the generator they leave, when they all return an identifier. *)
Fixpoint Split_calls (n : nat) (g : Split.SnowflakeGenerator) (t : Time)
  : option Split.SnowflakeGenerator :=
  match n with
  | O => Some g
  | S n' =>
    match Split.Generate g (mkWorld [t] []) with
    | Some ((_, None), g', _) => Split_calls n' g' t
    | _ => None
    end
  end.

Fixpoint Packed_calls (n : nat) (g : Packed.SnowflakeGenerator) (t : Time)
  : option Packed.SnowflakeGenerator :=
  match n with
  | O => Some g
  | S n' =>
    match Packed.Generate g (mkWorld [t] []) with
    | Some ((_, None), g', _) => Packed_calls n' g' t
    | _ => None
    end
  end.

(** * Verification *)

(** ** Arithmetic of the bit fields *)

Lemma mask_value : snowflakeSequenceMask = 4095.
Proof. reflexivity. Qed.

Lemma wrap_small (z : Z) : Int64.in_range z -> Int64.wrap z = z.
Proof.
  unfold Int64.in_range, Int64.wrap. intros H.
  rewrite Z.mod_small; lia.
Qed.

Lemma wrap_in_range (z : Z) : Int64.in_range (Int64.wrap z).
Proof.
  unfold Int64.in_range, Int64.wrap.
  pose proof (Z.mod_pos_bound (z + 2 ^ 63) (2 ^ 64) ltac:(lia)). lia.
Qed.

Lemma shl_small (x n : Z) :
  0 <= n -> Int64.in_range (x * 2 ^ n) -> Int64.shl x n = x * 2 ^ n.
Proof.
  intros Hn Hr. unfold Int64.shl.
  rewrite Z.shiftl_mul_pow2 by assumption. now apply wrap_small.
Qed.

(** The low [n] bits of a wrapped left shift by [n <= 64] are clear: the
    result is a multiple of [2 ^ n]. *)
Lemma wrap_eq (z : Z) :
  Int64.wrap z = z - 2 ^ 64 * ((z + 2 ^ 63) / 2 ^ 64).
Proof.
  unfold Int64.wrap. rewrite Z.mod_eq by lia. lia.
Qed.

Lemma shl_multiple (x n : Z) :
  0 <= n <= 63 -> exists q, Int64.shl x n = q * 2 ^ n.
Proof.
  intros Hn. unfold Int64.shl.
  rewrite wrap_eq, Z.shiftl_mul_pow2 by lia.
  set (k := (x * 2 ^ n + 2 ^ 63) / 2 ^ 64).
  exists (x - 2 ^ (64 - n) * k).
  replace (2 ^ 64) with (2 ^ (64 - n) * 2 ^ n)
    by (rewrite <- Z.pow_add_r by lia; f_equal; lia).
  ring.
Qed.

Lemma land_shifted_small (a b n : Z) :
  0 <= n -> 0 <= b < 2 ^ n -> Z.land (a * 2 ^ n) b = 0.
Proof.
  intros Hn Hb. apply Z.bits_inj'. intros i Hi.
  rewrite Z.land_spec, Z.bits_0.
  destruct (Z.lt_ge_cases i n) as [L | G].
  - now rewrite Z.mul_pow2_bits_low.
  - rewrite <- (Z.mod_small b (2 ^ n)) by assumption.
    rewrite Z.mod_pow2_bits_high by lia. apply andb_false_r.
Qed.

(** Or-ing a field below a shifted one is adding it. *)
Lemma lor_shifted_small (a b n : Z) :
  0 <= n -> 0 <= b < 2 ^ n -> Z.lor (a * 2 ^ n) b = a * 2 ^ n + b.
Proof.
  intros Hn Hb.
  pose proof (land_shifted_small a b n Hn Hb) as L.
  rewrite <- Z.lxor_lor by assumption.
  symmetry. now apply Z.add_nocarry_lxor.
Qed.

Lemma shr_div (x : Z) :
  Int64.shr x snowflakeSequenceBits = x / 4096.
Proof. unfold Int64.shr. now rewrite Z.shiftr_div_pow2. Qed.

Lemma land_mask_mod (x : Z) : Z.land x snowflakeSequenceMask = x mod 4096.
Proof.
  rewrite mask_value. change 4095 with (Z.ones 12).
  now rewrite Z.land_ones.
Qed.

Lemma relative_in_range (epoch : Z) (t : Time) :
  Int64.in_range (relative epoch t).
Proof. apply wrap_in_range. Qed.

Lemma relative_at_ms (epoch ms mono : Z) :
  Int64.in_range (ms - epoch) -> relative epoch (at_ms ms mono) = ms - epoch.
Proof.
  intros H. unfold relative, Int64.sub, UnixMilli, at_ms. simpl.
  rewrite Z.div_mul by lia. now apply wrap_small.
Qed.

Lemma cas_same (v new : Z) : CompareAndSwap v v new = (true, new).
Proof. unfold CompareAndSwap. now rewrite Z.eqb_refl. Qed.

(** ** One call of the two-word generator *)

Lemma Split_loop_failed g clk sl e g' w' :
  Split.loop g clk sl = Failed e g' w' ->
  e = ErrGenerationClockRollback /\ g' = g.
Proof.
  revert sl. induction clk as [| t clk IH]; intros sl; simpl; [discriminate |].
  rewrite !cas_same.
  destruct (_ <? _); [intros [= <- <- <-]; auto |].
  destruct (_ =? _); [| discriminate].
  destruct (_ =? _); [apply IH | discriminate].
Qed.

(** What a winning round returns and leaves behind. *)
Lemma Split_loop_minted g clk sl ts sq g' w' :
  Split.loop g clk sl = Minted ts sq g' w' ->
  g' = Split.set_seq (Split.set_lts g ts) sq /\
  (exists t, In t clk /\ ts = relative (Split.tsepoch g) t) /\
  ((ts = Split.lts g /\ sq = Int64.add (Split.seq g) 1 /\
    Split.seq g <> snowflakeSequenceMask) \/
   (Split.lts g < ts /\ sq = 0)).
Proof.
  revert sl. induction clk as [| t clk IH]; intros sl; simpl; [discriminate |].
  rewrite !cas_same.
  destruct (Z.ltb_spec (relative (Split.tsepoch g) t) (Split.lts g));
    [discriminate |].
  destruct (Z.eqb_spec (relative (Split.tsepoch g) t) (Split.lts g)) as [E | N].
  - destruct (Z.eqb_spec (Split.seq g) snowflakeSequenceMask) as [M | M].
    + intros H'. apply IH in H'. destruct H' as (? & (t' & ? & ?) & ?).
      repeat split; eauto using in_cons.
    + intros [= <- <- <- <-]. repeat split; eauto using in_eq.
      destruct g; unfold Split.set_seq, Split.set_lts; simpl in *; now subst.
  - intros [= <- <- <- <-]. repeat split; eauto using in_eq.
    right. split; [lia | reflexivity].
Qed.

(** ** One call of the packed generator *)

(** The polling loop takes its readings two at a time. *)
Lemma list_pairs_ind (A : Type) (P : list A -> Prop) :
  P [] -> (forall a, P [a]) -> (forall a b l, P l -> P (a :: b :: l)) ->
  forall l, P l.
Proof.
  intros H0 H1 H2 l.
  enough (P l /\ forall a, P (a :: l)) by tauto.
  induction l as [| b l [IHl IHl']]; split; auto.
Qed.

(** The polling hands back a suffix of the readings it was given. *)
Lemma poll_suffix e dl p r clk sl r' w :
  Packed.poll e dl p r clk sl = Some (r', w) ->
  exists used, clk = used ++ clock w /\ used <> [].
Proof.
  revert r sl.
  induction clk as [| c | c t clk2 IH] using list_pairs_ind; intros r sl;
    simpl; try discriminate.
  - destruct (Before c dl); [discriminate |].
    intros [= <- <-]. now exists [c].
  - destruct (Before c dl); [| intros [= <- <-]; now exists [c]].
    destruct (_ >=? _); [intros [= <- <-]; now exists [c; t] |].
    intros P. apply IH in P. destruct P as (used & -> & _).
    now exists (c :: t :: used).
Qed.

(** After the polling the reading is either the one it started with, or a
    reading of the clock. *)
Lemma poll_origin e dl p r clk sl r' w :
  Packed.poll e dl p r clk sl = Some (r', w) ->
  r' = r \/ (p <= r' /\ exists t, In t clk /\ r' = relative e t) \/ r' < p.
Proof.
  revert r sl.
  induction clk as [| c | c t clk2 IH] using list_pairs_ind; intros r sl;
    simpl; try discriminate.
  - destruct (Before c dl); [discriminate | intros [= <- <-]; auto].
  - destruct (Before c dl); [| intros [= <- <-]; auto].
    destruct (Z.geb_spec (relative e t) p).
    + intros [= <- <-]. right; left. split; [lia |]. exists t. simpl; auto.
    + intros P. apply IH in P.
      destruct P as [-> | [(? & t' & ? & ?) | ?]]; auto.
      right; left. split; [assumption |]. exists t'. simpl; auto.
Qed.

Lemma await_suffix e p r clk sl x w :
  Packed.await e p r clk sl = Some (x, w) ->
  exists used, clk = used ++ clock w /\ used <> [].
Proof.
  unfold Packed.await. destruct clk as [| d clk1]; [discriminate |].
  destruct (Packed.poll _ _ _ _ _ _) as [[r' w0] |] eqn:P; [| discriminate].
  apply poll_suffix in P. destruct P as (used & -> & _).
  destruct (_ <? _); intros [= <- <-]; now exists (d :: used).
Qed.

Lemma await_verdict e p r clk sl x w :
  r < p ->
  Packed.await e p r clk sl = Some (x, w) ->
  match x with
  | inl r' => p <= r' /\ exists t, In t clk /\ r' = relative e t
  | inr err => err = ErrGenerationClockRollback
  end.
Proof.
  intros Hr. unfold Packed.await. destruct clk as [| d clk1]; [discriminate |].
  destruct (Packed.poll _ _ _ _ _ _) as [[r' w0] |] eqn:P; [| discriminate].
  apply poll_origin in P.
  destruct (Z.ltb_spec r' p); intros [= <- <-]; [reflexivity |].
  destruct P as [-> | [(? & t & ? & ?) | ?]]; try lia.
  split; [assumption |]. exists t. simpl; auto.
Qed.

(** A round of the loop, with the compare-and-swap resolved: a caller
    alone always wins it. *)
Lemma Packed_loop_round n g t clk0 sl :
  Packed.loop (S n) g (t :: clk0) sl =
  match (if relative (Packed.tsepoch g) t <? Packed.lastTs g
         then Packed.await (Packed.tsepoch g) (Packed.lastTs g)
                (relative (Packed.tsepoch g) t) clk0 sl
         else Some (inl (relative (Packed.tsepoch g) t), mkWorld clk0 sl)) with
  | None => Starved
  | Some (inr e, w) => Failed e g w
  | Some (inl r, w) =>
    if r =? Packed.lastTs g then
      if Packed.lastSeq g =? snowflakeSequenceMask then
        Packed.loop n g (clock w) (Millisecond :: slept w)
      else
        Minted (Packed.lastTs g) (Int64.add (Packed.lastSeq g) 1)
          (Packed.set_state g
             (Z.lor (Int64.shl (Packed.lastTs g) snowflakeSequenceBits)
                (Int64.add (Packed.lastSeq g) 1))) w
    else
      Minted r 0
        (Packed.set_state g
           (Z.lor (Int64.shl r snowflakeSequenceBits) 0)) w
  end.
Proof.
  cbn [Packed.loop]. unfold Packed.lastTs, Packed.lastSeq.
  destruct (if _ <? _ then _ else _) as [[[r | e] w] |]; try reflexivity.
  now rewrite !cas_same.
Qed.

Lemma Packed_loop_failed n g clk sl e g' w' :
  Packed.loop n g clk sl = Failed e g' w' ->
  e = ErrGenerationClockRollback /\ g' = g.
Proof.
  revert clk sl. induction n as [| n IH]; intros clk sl; [discriminate |].
  destruct clk as [| t clk0]; [discriminate |].
  rewrite Packed_loop_round.
  destruct (Z.ltb_spec (relative (Packed.tsepoch g) t) (Packed.lastTs g))
    as [L | G].
  - destruct (Packed.await _ _ _ _ _) as [[[r | err] w] |] eqn:A;
      try discriminate.
    + destruct (_ =? _); [| discriminate].
      destruct (_ =? _); [apply IH | discriminate].
    + apply (await_verdict _ _ _ _ _ _ _ L) in A.
      intros [= <- <- <-]. auto.
  - destruct (_ =? _); [| discriminate].
    destruct (_ =? _); [apply IH | discriminate].
Qed.

(** What a winning round returns and leaves behind. *)
Lemma Packed_loop_minted n g clk sl ts sq g' w' :
  Packed.loop n g clk sl = Minted ts sq g' w' ->
  g' = Packed.set_state g
         (Z.lor (Int64.shl ts snowflakeSequenceBits) sq) /\
  ((ts = Packed.lastTs g /\ sq = Int64.add (Packed.lastSeq g) 1 /\
    Packed.lastSeq g <> snowflakeSequenceMask) \/
   (Packed.lastTs g < ts /\ sq = 0 /\
    exists t, In t clk /\ ts = relative (Packed.tsepoch g) t)).
Proof.
  revert clk sl. induction n as [| n IH]; intros clk sl; [discriminate |].
  destruct clk as [| t clk0]; [discriminate |].
  rewrite Packed_loop_round.
  destruct (Z.ltb_spec (relative (Packed.tsepoch g) t) (Packed.lastTs g))
    as [L | G].
  - destruct (Packed.await _ _ _ _ _) as [[[r | err] w] |] eqn:A;
      try discriminate.
    destruct (await_suffix _ _ _ _ _ _ _ A) as (used & Eclk & _).
    apply (await_verdict _ _ _ _ _ _ _ L) in A. destruct A as [Hr (t' & ? & ?)].
    destruct (Z.eqb_spec r (Packed.lastTs g)) as [E | N].
    + destruct (Z.eqb_spec (Packed.lastSeq g) snowflakeSequenceMask) as [M | M].
      * intros R. apply IH in R.
        destruct R as [? [? | (? & ? & t'' & ? & ?)]]; split; auto.
        right. repeat split; auto. exists t''. split; [| assumption].
        right. rewrite Eclk. apply in_or_app. now right.
      * intros [= <- <- <- <-]. split; auto.
    + intros [= <- <- <- <-]. split; auto.
      right. repeat split; [lia |]. exists t'. split; [right |]; auto.
  - cbn [clock slept].
    destruct (Z.eqb_spec (relative (Packed.tsepoch g) t) (Packed.lastTs g))
      as [E | N].
    + destruct (Z.eqb_spec (Packed.lastSeq g) snowflakeSequenceMask) as [M | M].
      * intros R. apply IH in R.
        destruct R as [? [? | (? & ? & t'' & ? & ?)]]; split; auto.
        right. repeat split; auto. exists t''. split; [right |]; auto.
      * intros [= <- <- <- <-]. split; auto.
    + intros [= <- <- <- <-]. split; auto.
      right. repeat split; [lia |]. exists t. split; [left |]; auto.
Qed.

(** The fuel of [Packed.loop] never decides: once there is more of it than
    readings, more makes no difference. *)
Lemma Packed_loop_fuel n m g clk sl :
  (length clk < n)%nat -> (length clk < m)%nat ->
  Packed.loop n g clk sl = Packed.loop m g clk sl.
Proof.
  revert m clk sl. induction n as [| n IH]; intros m clk sl Hn Hm; [lia |].
  destruct m as [| m]; [lia |].
  destruct clk as [| t clk0]; [reflexivity |].
  rewrite !Packed_loop_round. simpl in Hn, Hm.
  destruct (_ <? _).
  - destruct (Packed.await _ _ _ _ _) as [[[r | err] w] |] eqn:A;
      try reflexivity.
    destruct (await_suffix _ _ _ _ _ _ _ A) as (used & Eclk & _).
    assert (length (clock w) <= length clk0)%nat
      by (rewrite Eclk, length_app; lia).
    destruct (_ =? _); [| reflexivity].
    destruct (_ =? _); [apply IH; lia | reflexivity].
  - cbn [clock slept].
    destruct (_ =? _); [| reflexivity].
    destruct (_ =? _); [apply IH; lia | reflexivity].
Qed.

(** ** A call seen from outside *)

Lemma Split_Generate_ok g w id g' w' :
  Split.Generate g w = Some ((id, None), g', w') ->
  exists ts sq,
    Split.loop g (clock w) (slept w) = Minted ts sq g' w' /\
    id = pack ts (Split.shiftedNid g) sq.
Proof.
  unfold Split.Generate.
  destruct (Split.loop _ _ _) as [ts sq g1 w1 | e g1 w1 |];
    try discriminate.
  intros [= <- <- <-]. eauto.
Qed.

Lemma Split_Generate_err g w id e g' w' :
  Split.Generate g w = Some ((id, Some e), g', w') ->
  Split.loop g (clock w) (slept w) = Failed e g' w' /\ id = 0.
Proof.
  unfold Split.Generate.
  destruct (Split.loop _ _ _) as [ts sq g1 w1 | e1 g1 w1 |];
    try discriminate.
  intros [= <- <- <- <-]. auto.
Qed.

Lemma Packed_Generate_ok g w id g' w' :
  Packed.Generate g w = Some ((id, None), g', w') ->
  exists ts sq,
    Packed.loop (S (length (clock w))) g (clock w) (slept w)
      = Minted ts sq g' w' /\
    id = pack ts (Packed.shiftedNid g) sq.
Proof.
  unfold Packed.Generate.
  destruct (Packed.loop _ _ _ _) as [ts sq g1 w1 | e g1 w1 |];
    try discriminate.
  intros [= <- <- <-]. eauto.
Qed.

Lemma Packed_Generate_err g w id e g' w' :
  Packed.Generate g w = Some ((id, Some e), g', w') ->
  Packed.loop (S (length (clock w))) g (clock w) (slept w)
    = Failed e g' w' /\ id = 0.
Proof.
  unfold Packed.Generate.
  destruct (Packed.loop _ _ _ _) as [ts sq g1 w1 | e1 g1 w1 |];
    try discriminate.
  intros [= <- <- <- <-]. auto.
Qed.

(** ** The layout of an identifier *)

Lemma pack_sum (ts nodeId sq : Z) :
  0 <= ts < 2 ^ 41 -> 0 <= nodeId < 2 ^ 10 -> 0 <= sq < 2 ^ 12 ->
  pack ts (nodeId * 2 ^ 12) sq = ts * 2 ^ 22 + nodeId * 2 ^ 12 + sq.
Proof.
  intros Hts Hn Hs. unfold pack.
  change snowflakeTimestampShift with 22.
  rewrite shl_small by (unfold Int64.in_range; lia).
  replace (ts * 2 ^ 22) with ((ts * 2 ^ 10) * 2 ^ 12) by lia.
  rewrite <- !Z.shiftl_mul_pow2, <- Z.shiftl_lor by lia.
  rewrite !Z.shiftl_mul_pow2 by lia.
  rewrite (lor_shifted_small ts nodeId 10) by lia.
  rewrite lor_shifted_small by lia. lia.
Qed.

Lemma layout_sum (id ts nodeId sq : Z) :
  layout id ts nodeId sq ->
  id = ts * 2 ^ 22 + nodeId * 2 ^ 12 + sq.
Proof.
  intros (-> & Hs & Hn & Hts).
  change snowflakeTimestampShift with 22.
  change snowflakeNodeIdShift with 12.
  change snowflakeSequenceBits with 12 in Hs.
  change snowflakeNodeIdBits with 10 in Hn.
  change snowflakeTimestampBits with 41 in Hts.
  rewrite !Z.shiftl_mul_pow2 by lia.
  replace (ts * 2 ^ 22) with ((ts * 2 ^ 10) * 2 ^ 12) by lia.
  rewrite <- !Z.shiftl_mul_pow2, <- Z.shiftl_lor by lia.
  rewrite !Z.shiftl_mul_pow2 by lia.
  rewrite (lor_shifted_small ts nodeId 10) by lia.
  rewrite lor_shifted_small by lia. lia.
Qed.

Lemma pack_layout (ts nodeId sq : Z) :
  0 <= ts < 2 ^ 41 -> 0 <= nodeId < 2 ^ 10 -> 0 <= sq < 2 ^ 12 ->
  layout (pack ts (nodeId * 2 ^ 12) sq) ts nodeId sq.
Proof.
  intros Hts Hn Hs. unfold layout.
  change snowflakeSequenceBits with 12. change snowflakeNodeIdBits with 10.
  change snowflakeTimestampBits with 41.
  split; [| tauto].
  unfold pack. change snowflakeTimestampShift with 22.
  change snowflakeNodeIdShift with 12.
  rewrite shl_small by (unfold Int64.in_range; lia).
  now rewrite !Z.shiftl_mul_pow2 by lia.
Qed.

(** The accessors give the fields back, and the identifier is a
    non-negative [int64]. *)
Lemma layout_fields (id ts nodeId sq : Z) :
  layout id ts nodeId sq ->
  id_ts id = ts /\ id_node id = nodeId /\ id_seq id = sq /\
  0 <= id < 2 ^ 63.
Proof.
  intros L. pose proof (layout_sum _ _ _ _ L) as E.
  destruct L as (_ & Hs & Hn & Hts).
  change snowflakeSequenceBits with 12 in Hs.
  change snowflakeNodeIdBits with 10 in Hn.
  change snowflakeTimestampBits with 41 in Hts.
  unfold id_ts, id_node, id_seq, Int64.shr.
  change snowflakeTimestampShift with 22.
  change snowflakeNodeIdShift with 12.
  change (Z.shiftl 1 snowflakeNodeIdBits - 1) with (Z.ones 10).
  rewrite mask_value. change 4095 with (Z.ones 12).
  rewrite !Z.land_ones, !Z.shiftr_div_pow2 by lia. subst id.
  repeat split; try lia.
  - replace (ts * 2 ^ 22 + nodeId * 2 ^ 12 + sq)
      with (ts * 2 ^ 22 + (nodeId * 2 ^ 12 + sq)) by lia.
    rewrite Z.div_add_l by lia. rewrite Z.div_small; lia.
  - replace (ts * 2 ^ 22 + nodeId * 2 ^ 12 + sq)
      with ((ts * 2 ^ 10 + nodeId) * 2 ^ 12 + sq) by lia.
    rewrite Z.div_add_l by lia. rewrite (Z.div_small sq) by lia.
    rewrite Z.add_0_r, Z.add_comm, Z.mod_add by lia.
    apply Z.mod_small; lia.
  - replace (ts * 2 ^ 22 + nodeId * 2 ^ 12 + sq)
      with (sq + (ts * 2 ^ 10 + nodeId) * 2 ^ 12) by lia.
    rewrite Z.mod_add by lia. apply Z.mod_small; lia.
Qed.

(** ** Construction *)

(** C10: the two epoch presets are 1288834974657 ms (Twitter) and
    1420070400000 ms (Discord) after the Unix epoch. *)
Theorem epoch_presets :
  TwitterEpoch = 1288834974657 /\ DiscordEpoch = 1420070400000.
Proof. split; reflexivity. Qed.

(** X14: what [NewGenerator] checks and what it builds: the error comes
    exactly for node ids of 1024 and more, and a node id from 0 to 1023 gives a
    generator with zeroed words and the node id shifted by 12 bits. *)
Lemma NewGenerator_spec (nodeId epoch : Z) (now : Time) :
  (Packed.NewGenerator nodeId epoch = (None, Some ErrInvalidNodeId)
   <-> 1024 <= nodeId) /\
  (Split.NewGenerator nodeId epoch now = (None, Some ErrInvalidNodeId)
   <-> 1024 <= nodeId) /\
  (0 <= nodeId <= 1023 ->
   Packed.NewGenerator nodeId epoch
     = (Some {| Packed.tsepoch := epoch;
                Packed.shiftedNid := nodeId * 4096;
                Packed.state := 0 |}, None) /\
   Split.NewGenerator nodeId epoch now
     = (Some {| Split.tsepoch := epoch;
                Split.shiftedNid := nodeId * 4096;
                Split.st := now; Split.lts := 0; Split.seq := 0 |}, None)).
Proof.
  unfold Packed.NewGenerator, Split.NewGenerator.
  change (Z.shiftl 1 snowflakeNodeIdBits) with 1024.
  change snowflakeNodeIdShift with 12.
  destruct (Z.geb_spec nodeId 1024) as [G | L].
  - repeat split; intros; try lia; reflexivity.
  - repeat split; intros; try lia; try discriminate;
      rewrite shl_small by (unfold Int64.in_range; lia); reflexivity.
Qed.

(** C2: [NewGenerator] turns away node ids above 1023 only.  For the node
    id -1, outside [0, 1023], both versions return a generator and no
    error; its [shiftedNid] is -4096, all bits from 12 up set, and calls
    in two different milliseconds then return the same identifier. *)
Theorem NewGenerator_takes_negative_node :
  Packed.NewGenerator (-1) TwitterEpoch = (Some packed_minus_one, None) /\
  Split.NewGenerator (-1) TwitterEpoch (at_ms TwitterEpoch 0)
    = (Some split_minus_one, None) /\
  Packed.Generate packed_minus_one (mkWorld [tick 10 0] [])
    = Some ((-4096, None), Packed.set_state packed_minus_one (10 * 4096),
            mkWorld [] []) /\
  Packed.Generate (Packed.set_state packed_minus_one (10 * 4096))
      (mkWorld [tick 11 0] [])
    = Some ((-4096, None), Packed.set_state packed_minus_one (11 * 4096),
            mkWorld [] []).
Proof. repeat split; vm_compute; reflexivity. Qed.

(** ** Clock rollback *)

(** C9: a call that fails with the clock-rollback error returns the
    identifier 0 and leaves the generator as it found it, in the two-word
    and in the packed version. *)
Theorem rollback_changes_nothing :
  (forall g w id g' w',
     Split.Generate g w
       = Some ((id, Some ErrGenerationClockRollback), g', w') ->
     id = 0 /\ g' = g) /\
  (forall g w id g' w',
     Packed.Generate g w
       = Some ((id, Some ErrGenerationClockRollback), g', w') ->
     id = 0 /\ g' = g).
Proof.
  split; intros g w id g' w' H.
  - apply Split_Generate_err in H. destruct H as [H ->].
    apply Split_loop_failed in H. tauto.
  - apply Packed_Generate_err in H. destruct H as [H ->].
    apply Packed_loop_failed in H. tauto.
Qed.

(** The clock-rollback error is the only one [Generate] returns. *)
Lemma Generate_only_rollback :
  (forall g w id e g' w',
     Split.Generate g w = Some ((id, Some e), g', w') ->
     e = ErrGenerationClockRollback) /\
  (forall g w id e g' w',
     Packed.Generate g w = Some ((id, Some e), g', w') ->
     e = ErrGenerationClockRollback).
Proof.
  split; intros g w id e g' w' H.
  - apply Split_Generate_err in H. destruct H as [H _].
    now apply Split_loop_failed in H.
  - apply Packed_Generate_err in H. destruct H as [H _].
    now apply Packed_loop_failed in H.
Qed.

(** With timestamp 5 recorded and the clock at 4: the two-word version
    fails on its first reading, the packed one after a deadline check 15 ms
    later; both return 0 and the generator they were given. *)
Lemma rollback_changes_nothing_witness :
  (Split.Generate (split_at 5 0) (mkWorld [tick 4 0] [])
     = Some ((0, Some ErrGenerationClockRollback), split_at 5 0,
             mkWorld [] []) /\
   (0 = 0 /\ split_at 5 0 = split_at 5 0)) /\
  (Packed.Generate (packed_at 5 0)
     (mkWorld [tick 4 0; tick 4 100; tick 4 15000100] [])
     = Some ((0, Some ErrGenerationClockRollback), packed_at 5 0,
             mkWorld [] []) /\
   (0 = 0 /\ packed_at 5 0 = packed_at 5 0)).
Proof.
  split.
  - split; [vm_compute; reflexivity |].
    apply (proj1 rollback_changes_nothing
             (split_at 5 0) (mkWorld [tick 4 0] []) 0 (split_at 5 0)
             (mkWorld [] [])).
    vm_compute; reflexivity.
  - split; [vm_compute; reflexivity |].
    apply (proj2 rollback_changes_nothing
             (packed_at 5 0)
             (mkWorld [tick 4 0; tick 4 100; tick 4 15000100] []) 0
             (packed_at 5 0) (mkWorld [] [])).
    vm_compute; reflexivity.
Defined.

(** ** The sequence number *)

Lemma Split_Generate_cases g w r g' w' :
  Split.Generate g w = Some (r, g', w') ->
  (exists ts sq, Split.loop g (clock w) (slept w) = Minted ts sq g' w' /\
                 r = (pack ts (Split.shiftedNid g) sq, None)) \/
  (g' = g /\ r = (0, Some ErrGenerationClockRollback)).
Proof.
  unfold Split.Generate.
  destruct (Split.loop _ _ _) as [ts sq g1 w1 | e g1 w1 |] eqn:L;
    try discriminate; intros [= <- <- <-].
  - left. eauto.
  - right. apply Split_loop_failed in L. destruct L as [-> ->]. auto.
Qed.

Lemma Packed_Generate_cases g w r g' w' :
  Packed.Generate g w = Some (r, g', w') ->
  (exists ts sq,
     Packed.loop (S (length (clock w))) g (clock w) (slept w)
       = Minted ts sq g' w' /\
     r = (pack ts (Packed.shiftedNid g) sq, None)) \/
  (g' = g /\ r = (0, Some ErrGenerationClockRollback)).
Proof.
  unfold Packed.Generate.
  destruct (Packed.loop _ _ _ _) as [ts sq g1 w1 | e g1 w1 |] eqn:L;
    try discriminate; intros [= <- <- <-].
  - left. eauto.
  - right. apply Packed_loop_failed in L. destruct L as [-> ->]. auto.
Qed.

(** The sequence number a two-word generator holds stays within 12 bits,
    whatever the clock does, and the configuration is never touched. *)
Lemma Split_reachable_seq ok g0 g :
  0 <= Split.seq g0 <= snowflakeSequenceMask ->
  Split_reachable ok g0 g ->
  0 <= Split.seq g <= snowflakeSequenceMask /\
  Split.shiftedNid g = Split.shiftedNid g0 /\
  Split.tsepoch g = Split.tsepoch g0.
Proof.
  intros H0 R. induction R as [| g w r g' w' R IH _ G]; [auto |].
  apply Split_Generate_cases in G.
  destruct G as [(ts & sq & L & _) | [-> _]]; [| assumption].
  apply Split_loop_minted in L. destruct L as (-> & _ & C).
  rewrite mask_value in *. simpl.
  destruct C as [(_ & -> & N) | (_ & ->)]; [| lia].
  unfold Int64.add. rewrite wrap_small by (unfold Int64.in_range; lia).
  repeat split; try tauto; lia.
Qed.

Lemma Packed_reachable_config ok g0 g :
  Packed_reachable ok g0 g ->
  Packed.shiftedNid g = Packed.shiftedNid g0 /\
  Packed.tsepoch g = Packed.tsepoch g0.
Proof.
  intros R. induction R as [| g w r g' w' R IH _ G]; [auto |].
  apply Packed_Generate_cases in G.
  destruct G as [(ts & sq & L & _) | [-> _]]; [| assumption].
  apply Packed_loop_minted in L. destruct L as (-> & _). assumption.
Qed.

Lemma lastSeq_range g : 0 <= Packed.lastSeq g <= snowflakeSequenceMask.
Proof.
  unfold Packed.lastSeq. rewrite land_mask_mod, mask_value.
  pose proof (Z.mod_pos_bound (Packed.state g) 4096 ltac:(lia)). lia.
Qed.

(** The sequence field of an identifier is the sequence number packed
    into it, whatever the timestamp and the node id are. *)
Lemma id_seq_pack (ts nodeId sq : Z) :
  0 <= sq <= snowflakeSequenceMask ->
  id_seq (pack ts (Int64.shl nodeId snowflakeNodeIdShift) sq) = sq.
Proof.
  rewrite mask_value. intros Hs. unfold id_seq, pack.
  destruct (shl_multiple ts snowflakeTimestampShift ltac:(cbv; split; congruence))
    as [a ->].
  destruct (shl_multiple nodeId snowflakeNodeIdShift ltac:(cbv; split; congruence))
    as [b ->].
  rewrite mask_value. change 4095 with (Z.ones 12).
  rewrite !Z.land_ones by lia.
  change snowflakeTimestampShift with 22. change snowflakeNodeIdShift with 12.
  replace (a * 2 ^ 22) with ((a * 2 ^ 10) * 2 ^ 12) by lia.
  rewrite <- !Z.shiftl_mul_pow2, <- Z.shiftl_lor by lia.
  rewrite Z.shiftl_mul_pow2 by lia.
  rewrite lor_shifted_small by lia.
  rewrite Z.add_comm, Z.mod_add by lia. apply Z.mod_small. lia.
Qed.

(** ** Successful calls under a timely clock *)

Lemma timely_In epoch clk t :
  timely epoch clk -> In t clk -> relative epoch t < 2 ^ 41.
Proof.
  unfold timely. rewrite Forall_forall. intros H I. exact (H t I).
Qed.

(** A successful call of the two-word generator: the identifier has the
    layout for the timestamp and sequence number now recorded, and these
    follow the ones recorded before. *)
Lemma Split_call nodeId g w id g' w' :
  Split_inv nodeId g ->
  timely (Split.tsepoch g) (clock w) ->
  Split.Generate g w = Some ((id, None), g', w') ->
  Split_inv nodeId g' /\
  Split.tsepoch g' = Split.tsepoch g /\
  Split.loop g (clock w) (slept w)
    = Minted (Split.lts g') (Split.seq g') g' w' /\
  layout id (Split.lts g') nodeId (Split.seq g') /\
  ((Split.lts g' = Split.lts g /\ Split.seq g' = Split.seq g + 1) \/
   (Split.lts g < Split.lts g' /\ Split.seq g' = 0)).
Proof.
  intros (Hn & Hs & Ht & Hq) T G.
  apply Split_Generate_ok in G. destruct G as (ts & sq & L & ->).
  pose proof (Split_loop_minted _ _ _ _ _ _ _ L) as (E & (t & I & Et) & C).
  pose proof (timely_In _ _ _ T I) as B. rewrite <- Et in B.
  change snowflakeNodeIdBits with 10 in *.
  change snowflakeNodeIdShift with 12 in *.
  change snowflakeTimestampBits with 41 in *. rewrite mask_value in *.
  assert (R : 0 <= ts < 2 ^ 41 /\ 0 <= sq <= 4095 /\
              ((ts = Split.lts g /\ sq = Split.seq g + 1) \/
               (Split.lts g < ts /\ sq = 0))).
  { destruct C as [(-> & -> & N) | (Lt & ->)].
    - unfold Int64.add. rewrite wrap_small by (unfold Int64.in_range; lia).
      lia.
    - lia. }
  destruct R as (Rt & Rq & RC). subst g'. unfold Split_inv.
  cbn [Split.lts Split.seq Split.tsepoch Split.shiftedNid Split.set_seq
       Split.set_lts].
  change snowflakeNodeIdBits with 10.
  change snowflakeNodeIdShift with 12.
  change snowflakeTimestampBits with 41. rewrite mask_value.
  repeat split; try assumption; try tauto; try lia.
  - rewrite Hs. unfold pack. change snowflakeTimestampShift with 22.
    rewrite shl_small by (unfold Int64.in_range; lia).
    change snowflakeNodeIdShift with 12. now rewrite !Z.shiftl_mul_pow2 by lia.
  - change snowflakeSequenceBits with 12. lia.
Qed.

(** The state word of the packed generator, taken apart. *)
Lemma Packed_state_split g :
  Packed.state g = Packed.lastTs g * 4096 + Packed.lastSeq g /\
  0 <= Packed.lastSeq g <= 4095.
Proof.
  unfold Packed.lastTs, Packed.lastSeq. rewrite shr_div, land_mask_mod.
  pose proof (Z.div_mod (Packed.state g) 4096 ltac:(lia)).
  pose proof (Z.mod_pos_bound (Packed.state g) 4096 ltac:(lia)). lia.
Qed.

(** A timestamp and a sequence number put into the state word come out
    again. *)
Lemma Packed_state_join g ts sq :
  - 2 ^ 51 <= ts < 2 ^ 51 -> 0 <= sq <= 4095 ->
  let g' := Packed.set_state g
              (Z.lor (Int64.shl ts snowflakeSequenceBits) sq) in
  Packed.state g' = ts * 4096 + sq /\
  Packed.lastTs g' = ts /\ Packed.lastSeq g' = sq.
Proof.
  intros Ht Hs g'.
  assert (E : Packed.state g' = ts * 4096 + sq).
  { unfold g'. cbn [Packed.state Packed.set_state].
    change snowflakeSequenceBits with 12.
    rewrite shl_small by (unfold Int64.in_range; lia).
    rewrite lor_shifted_small; lia. }
  split; [assumption |].
  unfold Packed.lastTs, Packed.lastSeq. rewrite shr_div, land_mask_mod, E.
  split.
  - rewrite Z.div_add_l by lia. rewrite Z.div_small; lia.
  - rewrite Z.add_comm, Z.mod_add by lia. apply Z.mod_small; lia.
Qed.

Lemma Packed_inv_fields nodeId g :
  Packed_inv nodeId g ->
  0 <= Packed.lastTs g < 2 ^ 41 /\ 0 <= Packed.lastSeq g <= 4095.
Proof.
  intros (_ & _ & Hs).
  change (snowflakeTimestampBits + snowflakeSequenceBits) with 53 in Hs.
  pose proof (Packed_state_split g) as (E & B).
  split; [| assumption]. lia.
Qed.

(** A successful call of the packed generator: as for the two-word one. *)
Lemma Packed_call nodeId g w id g' w' :
  Packed_inv nodeId g ->
  timely (Packed.tsepoch g) (clock w) ->
  Packed.Generate g w = Some ((id, None), g', w') ->
  Packed_inv nodeId g' /\
  Packed.tsepoch g' = Packed.tsepoch g /\
  Packed.loop (S (length (clock w))) g (clock w) (slept w)
    = Minted (Packed.lastTs g') (Packed.lastSeq g') g' w' /\
  layout id (Packed.lastTs g') nodeId (Packed.lastSeq g') /\
  ((Packed.lastTs g' = Packed.lastTs g /\
    Packed.lastSeq g' = Packed.lastSeq g + 1) \/
   (Packed.lastTs g < Packed.lastTs g' /\ Packed.lastSeq g' = 0)).
Proof.
  intros I T G. pose proof (Packed_inv_fields _ _ I) as (Ht & Hq).
  destruct I as (Hn & Hs & Hst).
  apply Packed_Generate_ok in G. destruct G as (ts & sq & L & ->).
  pose proof (Packed_loop_minted _ _ _ _ _ _ _ _ L) as (E & C).
  change snowflakeNodeIdBits with 10 in *.
  change snowflakeNodeIdShift with 12 in *.
  change (snowflakeTimestampBits + snowflakeSequenceBits) with 53 in *.
  rewrite mask_value in *.
  assert (R : 0 <= ts < 2 ^ 41 /\ 0 <= sq <= 4095 /\
              ((ts = Packed.lastTs g /\ sq = Packed.lastSeq g + 1) \/
               (Packed.lastTs g < ts /\ sq = 0))).
  { destruct C as [(-> & -> & N) | (Lt & -> & t & It & Et)].
    - unfold Int64.add. rewrite wrap_small by (unfold Int64.in_range; lia).
      lia.
    - pose proof (timely_In _ _ _ T It) as B. rewrite <- Et in B. lia. }
  destruct R as (Rt & Rq & RC).
  pose proof (Packed_state_join g ts sq ltac:(lia) ltac:(lia)) as J.
  cbv zeta in J. rewrite <- E in J. destruct J as (J1 & J2 & J3).
  rewrite J2, J3.
  assert (Ecfg : Packed.shiftedNid g' = Packed.shiftedNid g /\
                 Packed.tsepoch g' = Packed.tsepoch g) by (now rewrite E).
  destruct Ecfg as (En & Ee).
  repeat split; try tauto; try lia.
  - change snowflakeNodeIdShift with 12. congruence.
  - change (snowflakeTimestampBits + snowflakeSequenceBits) with 53. lia.
  - unfold pack. rewrite Hs. change snowflakeTimestampShift with 22.
    rewrite shl_small by (unfold Int64.in_range; lia).
    change snowflakeNodeIdShift with 12. now rewrite !Z.shiftl_mul_pow2 by lia.
  - change snowflakeSequenceBits with 12. lia.
Qed.

Lemma Split_reachable_inv nodeId g0 g :
  Split_inv nodeId g0 ->
  Split_reachable (timely (Split.tsepoch g0)) g0 g ->
  Split_inv nodeId g /\ Split.tsepoch g = Split.tsepoch g0.
Proof.
  intros I0 R. induction R as [| g w r g' w' R [IH E] T G]; [auto |].
  pose proof G as G'. apply Split_Generate_cases in G'.
  destruct G' as [(ts & sq & _ & ->) | [-> _]]; [| auto].
  rewrite <- E in T.
  pose proof (Split_call _ _ _ _ _ _ IH T G) as (? & ? & _). split; congruence.
Qed.

Lemma Packed_reachable_inv nodeId g0 g :
  Packed_inv nodeId g0 ->
  Packed_reachable (timely (Packed.tsepoch g0)) g0 g ->
  Packed_inv nodeId g /\ Packed.tsepoch g = Packed.tsepoch g0.
Proof.
  intros I0 R. induction R as [| g w r g' w' R [IH E] T G]; [auto |].
  pose proof G as G'. apply Packed_Generate_cases in G'.
  destruct G' as [(ts & sq & _ & ->) | [-> _]]; [| auto].
  rewrite <- E in T.
  pose proof (Packed_call _ _ _ _ _ _ IH T G) as (? & ? & _). split; congruence.
Qed.

Lemma Split_new_inv nodeId epoch now g0 :
  0 <= nodeId ->
  Split.NewGenerator nodeId epoch now = (Some g0, None) ->
  Split_inv nodeId g0 /\ Split.tsepoch g0 = epoch /\
  Split.lts g0 = 0 /\ Split.seq g0 = 0.
Proof.
  intros Hn. unfold Split.NewGenerator.
  change (Z.shiftl 1 snowflakeNodeIdBits) with 1024.
  destruct (Z.geb_spec nodeId 1024); [discriminate |].
  intros [= <-]. unfold Split_inv. cbn.
  change snowflakeNodeIdShift with 12.
  rewrite shl_small by (unfold Int64.in_range; lia). repeat split; lia.
Qed.

Lemma Packed_new_inv nodeId epoch g0 :
  0 <= nodeId ->
  Packed.NewGenerator nodeId epoch = (Some g0, None) ->
  Packed_inv nodeId g0 /\ Packed.tsepoch g0 = epoch /\ Packed.state g0 = 0.
Proof.
  intros Hn. unfold Packed.NewGenerator.
  change (Z.shiftl 1 snowflakeNodeIdBits) with 1024.
  destruct (Z.geb_spec nodeId 1024); [discriminate |].
  intros [= <-]. unfold Packed_inv. cbn.
  change snowflakeNodeIdShift with 12.
  rewrite shl_small by (unfold Int64.in_range; lia). repeat split; lia.
Qed.

(** ** The layout of the identifiers returned *)

(** C4, as stated, fails: [Generate] does not check that the relative
    timestamp fits 41 bits.  A generator for node 1 that reads the clock
    [2 ^ 41] ms after its epoch packs that timestamp; the shift by 22
    reaches the sign bit, the identifier is negative, and no fields within
    their widths give it. *)
Lemma layout_breaks_past_41_bits :
  Packed.NewGenerator 1 TwitterEpoch = (Some (packed_at 0 0), None) /\
  Packed.Generate (packed_at 0 0) (mkWorld [tick (2 ^ 41) 0] [])
    = Some ((- 2 ^ 63 + 4096, None), packed_at (2 ^ 41) 0, mkWorld [] []) /\
  Split.NewGenerator 1 TwitterEpoch (at_ms TwitterEpoch 0)
    = (Some (split_at 0 0), None) /\
  Split.Generate (split_at 0 0) (mkWorld [tick (2 ^ 41) 0] [])
    = Some ((- 2 ^ 63 + 4096, None), split_at (2 ^ 41) 0, mkWorld [] []) /\
  ~ (exists ts nodeId sq, layout (- 2 ^ 63 + 4096) ts nodeId sq).
Proof.
  split; [vm_compute; reflexivity |].
  split; [vm_compute; reflexivity |].
  split; [vm_compute; reflexivity |].
  split; [vm_compute; reflexivity |].
  intros (ts & nodeId & sq & L).
  apply layout_fields in L. lia.
Qed.

(** C4, amended: on a generator that [NewGenerator] made for a node id
    that is not negative, and as long as the clock stays below [2 ^ 41] ms
    after the epoch, every identifier a successful [Generate] returns is
    [(ts << 22) | (nodeId << 12) | seq] for the timestamp and sequence
    number of the call, each field non-negative and within its width. *)
Theorem identifier_layout :
  (forall nodeId epoch now g0 g w id g' w',
     0 <= nodeId ->
     Split.NewGenerator nodeId epoch now = (Some g0, None) ->
     Split_reachable (timely epoch) g0 g ->
     timely epoch (clock w) ->
     Split.Generate g w = Some ((id, None), g', w') ->
     exists ts sq,
       Split.loop g (clock w) (slept w) = Minted ts sq g' w' /\
       layout id ts nodeId sq) /\
  (forall nodeId epoch g0 g w id g' w',
     0 <= nodeId ->
     Packed.NewGenerator nodeId epoch = (Some g0, None) ->
     Packed_reachable (timely epoch) g0 g ->
     timely epoch (clock w) ->
     Packed.Generate g w = Some ((id, None), g', w') ->
     exists ts sq,
       Packed.loop (S (length (clock w))) g (clock w) (slept w)
         = Minted ts sq g' w' /\
       layout id ts nodeId sq).
Proof.
  split.
  - intros nodeId epoch now g0 g w id g' w' Hn N R T G.
    apply Split_new_inv in N; [| assumption]. destruct N as (I0 & <- & _).
    apply (Split_reachable_inv nodeId) in R; [| assumption].
    destruct R as (I & E). rewrite <- E in T.
    pose proof (Split_call _ _ _ _ _ _ I T G) as (_ & _ & L & Y & _). eauto.
  - intros nodeId epoch g0 g w id g' w' Hn N R T G.
    apply Packed_new_inv in N; [| assumption]. destruct N as (I0 & <- & _).
    apply (Packed_reachable_inv nodeId) in R; [| assumption].
    destruct R as (I & E). rewrite <- E in T.
    pose proof (Packed_call _ _ _ _ _ _ I T G) as (_ & _ & L & Y & _). eauto.
Qed.

Lemma timely_ticks (l : list Time) :
  forallb (fun t => relative TwitterEpoch t <? 2 ^ 41) l = true ->
  timely TwitterEpoch l.
Proof.
  unfold timely. rewrite forallb_forall, Forall_forall.
  intros H t I. apply Z.ltb_lt. exact (H t I).
Qed.

(** The second call in millisecond 10 of a generator for node 1. *)
Lemma identifier_layout_witness :
  exists ts sq,
    Packed.loop 2 (packed_at 10 0) [tick 10 1000] []
      = Minted ts sq (packed_at 10 1) (mkWorld [] []) /\
    layout (pack 10 4096 1) ts 1 sq.
Proof.
  apply (proj2 identifier_layout 1 TwitterEpoch (packed_at 0 0)
           (packed_at 10 0) (mkWorld [tick 10 1000] []) (pack 10 4096 1)
           (packed_at 10 1) (mkWorld [] [])).
  - lia.
  - reflexivity.
  - apply (Packed_reach_call _ _ (packed_at 0 0) (mkWorld [tick 10 0] [])
             (pack 10 4096 0, None) (packed_at 10 0) (mkWorld [] [])).
    + apply Packed_reach_new.
    + apply timely_ticks. reflexivity.
    + vm_compute; reflexivity.
  - apply timely_ticks. reflexivity.
  - vm_compute; reflexivity.
Defined.

(** ** Sequence numbers within and across milliseconds *)

(** C5, as stated, fails for the millisecond of the epoch itself: a new
    generator holds timestamp 0 and sequence 0, so its first call, made at
    relative timestamp 0, takes the branch for a millisecond already used
    and returns sequence 1. *)
Lemma first_call_at_epoch_gets_one :
  Packed.NewGenerator 1 TwitterEpoch = (Some (packed_at 0 0), None) /\
  Packed.Generate (packed_at 0 0) (mkWorld [tick 0 0] [])
    = Some ((4097, None), packed_at 0 1, mkWorld [] []) /\
  Split.NewGenerator 1 TwitterEpoch (at_ms TwitterEpoch 0)
    = (Some (split_at 0 0), None) /\
  Split.Generate (split_at 0 0) (mkWorld [tick 0 0] [])
    = Some ((4097, None), split_at 0 1, mkWorld [] []) /\
  id_ts 4097 = 0 /\ id_seq 4097 = 1.
Proof. repeat split; vm_compute; reflexivity. Qed.

(** C5, amended: on a generator made for a node id that is not negative,
    with the clock below [2 ^ 41] ms after the epoch: of two successful
    calls, one right after the other, the second has the sequence number
    of the first plus 1 when they have the same timestamp, and otherwise a
    greater timestamp and sequence number 0; the first call of a new
    generator returns sequence number 0 at a timestamp above 0, and 1 at
    timestamp 0. *)
Theorem sequence_steps :
  ((forall nodeId epoch now g0 g w1 id1 g1 w1' w2 id2 g2 w2',
      0 <= nodeId ->
      Split.NewGenerator nodeId epoch now = (Some g0, None) ->
      Split_reachable (timely epoch) g0 g ->
      timely epoch (clock w1) -> timely epoch (clock w2) ->
      Split.Generate g w1 = Some ((id1, None), g1, w1') ->
      Split.Generate g1 w2 = Some ((id2, None), g2, w2') ->
      (id_ts id2 = id_ts id1 -> id_seq id2 = id_seq id1 + 1) /\
      (id_ts id2 <> id_ts id1 -> id_ts id1 < id_ts id2 /\ id_seq id2 = 0)) /\
   (forall nodeId epoch now g0 w id g' w',
      0 <= nodeId ->
      Split.NewGenerator nodeId epoch now = (Some g0, None) ->
      timely epoch (clock w) ->
      Split.Generate g0 w = Some ((id, None), g', w') ->
      0 <= id_ts id /\
      (0 < id_ts id -> id_seq id = 0) /\ (id_ts id = 0 -> id_seq id = 1))) /\
  ((forall nodeId epoch g0 g w1 id1 g1 w1' w2 id2 g2 w2',
      0 <= nodeId ->
      Packed.NewGenerator nodeId epoch = (Some g0, None) ->
      Packed_reachable (timely epoch) g0 g ->
      timely epoch (clock w1) -> timely epoch (clock w2) ->
      Packed.Generate g w1 = Some ((id1, None), g1, w1') ->
      Packed.Generate g1 w2 = Some ((id2, None), g2, w2') ->
      (id_ts id2 = id_ts id1 -> id_seq id2 = id_seq id1 + 1) /\
      (id_ts id2 <> id_ts id1 -> id_ts id1 < id_ts id2 /\ id_seq id2 = 0)) /\
   (forall nodeId epoch g0 w id g' w',
      0 <= nodeId ->
      Packed.NewGenerator nodeId epoch = (Some g0, None) ->
      timely epoch (clock w) ->
      Packed.Generate g0 w = Some ((id, None), g', w') ->
      0 <= id_ts id /\
      (0 < id_ts id -> id_seq id = 0) /\ (id_ts id = 0 -> id_seq id = 1))).
Proof.
  split; split.
  - intros nodeId epoch now g0 g w1 id1 g1 w1' w2 id2 g2 w2' Hn N R T1 T2 G1 G2.
    apply Split_new_inv in N; [| assumption]. destruct N as (I0 & <- & _).
    apply (Split_reachable_inv nodeId) in R; [| assumption].
    destruct R as (I & E). rewrite <- E in T1, T2.
    pose proof (Split_call _ _ _ _ _ _ I T1 G1) as (I1 & E1 & _ & Y1 & _).
    rewrite <- E1 in T2.
    pose proof (Split_call _ _ _ _ _ _ I1 T2 G2) as (_ & _ & _ & Y2 & C).
    apply layout_fields in Y1, Y2.
    destruct Y1 as (-> & _ & -> & _), Y2 as (-> & _ & -> & _). lia.
  - intros nodeId epoch now g0 w id g' w' Hn N T G.
    apply Split_new_inv in N; [| assumption].
    destruct N as (I0 & <- & Z1 & Z2).
    pose proof (Split_call _ _ _ _ _ _ I0 T G) as (_ & _ & _ & Y & C).
    apply layout_fields in Y. destruct Y as (-> & _ & -> & _). lia.
  - intros nodeId epoch g0 g w1 id1 g1 w1' w2 id2 g2 w2' Hn N R T1 T2 G1 G2.
    apply Packed_new_inv in N; [| assumption]. destruct N as (I0 & <- & _).
    apply (Packed_reachable_inv nodeId) in R; [| assumption].
    destruct R as (I & E). rewrite <- E in T1, T2.
    pose proof (Packed_call _ _ _ _ _ _ I T1 G1) as (I1 & E1 & _ & Y1 & _).
    rewrite <- E1 in T2.
    pose proof (Packed_call _ _ _ _ _ _ I1 T2 G2) as (_ & _ & _ & Y2 & C).
    apply layout_fields in Y1, Y2.
    destruct Y1 as (-> & _ & -> & _), Y2 as (-> & _ & -> & _). lia.
  - intros nodeId epoch g0 w id g' w' Hn N T G.
    apply Packed_new_inv in N; [| assumption].
    destruct N as (I0 & <- & Z0).
    pose proof (Packed_call _ _ _ _ _ _ I0 T G) as (_ & _ & _ & Y & C).
    apply layout_fields in Y. destruct Y as (-> & _ & -> & _).
    assert (Packed.lastTs g0 = 0 /\ Packed.lastSeq g0 = 0) as [A B]
      by (unfold Packed.lastTs, Packed.lastSeq; rewrite Z0; split; reflexivity).
    lia.
Qed.

(** The first two calls of a new generator for node 1, both in millisecond
    10. *)
Lemma sequence_steps_witness :
  (id_ts (pack 10 4096 1) = id_ts (pack 10 4096 0) ->
   id_seq (pack 10 4096 1) = id_seq (pack 10 4096 0) + 1) /\
  (id_ts (pack 10 4096 1) <> id_ts (pack 10 4096 0) ->
   id_ts (pack 10 4096 0) < id_ts (pack 10 4096 1) /\
   id_seq (pack 10 4096 1) = 0).
Proof.
  apply (proj1 (proj2 sequence_steps) 1 TwitterEpoch (packed_at 0 0)
           (packed_at 0 0)
           (mkWorld [tick 10 0] []) (pack 10 4096 0) (packed_at 10 0)
           (mkWorld [] [])
           (mkWorld [tick 10 1000] []) (pack 10 4096 1) (packed_at 10 1)
           (mkWorld [] [])).
  - lia.
  - reflexivity.
  - apply Packed_reach_new.
  - apply timely_ticks. reflexivity.
  - apply timely_ticks. reflexivity.
  - vm_compute; reflexivity.
  - vm_compute; reflexivity.
Defined.

(** ** Waiting out a clock rollback *)

Lemma repeat_app_cons (A : Type) (a : A) (k : nat) (l : list A) :
  repeat a k ++ a :: l = a :: repeat a k ++ l.
Proof. induction k as [| k IH]; simpl; [reflexivity | now rewrite IH]. Qed.

(** Rounds that find the clock behind are polled through, a millisecond
    of sleep after each. *)
Lemma poll_behind e dl p rounds : forall r rest sl,
  r < p ->
  behind e dl p rounds = true ->
  exists r', r' < p /\
    Packed.poll e dl p r (flat_rounds rounds ++ rest) sl
      = Packed.poll e dl p r' rest (repeat Millisecond (length rounds) ++ sl).
Proof.
  induction rounds as [| [c t] rounds IH]; intros r rest sl Hr B.
  - exists r. auto.
  - simpl in B. apply andb_prop in B. destruct B as [B1 B].
    apply andb_prop in B1. destruct B1 as [Bc Bt].
    apply Z.ltb_lt in Bt.
    destruct (IH (relative e t) rest (Millisecond :: sl) Bt B)
      as (r' & Hr' & E).
    exists r'. split; [assumption |].
    cbn [flat_rounds flat_map fst snd app Packed.poll].
    rewrite Bc. destruct (Z.geb_spec (relative e t) p); [lia |].
    fold (flat_rounds rounds). rewrite E.
    cbn [length repeat]. now rewrite repeat_app_cons.
Qed.

(** C3, as stated, fails for the two-word version: it does not poll.  With
    timestamp 5 recorded and the clock read at 4, [Generate] fails at once,
    one reading taken and no sleep, although the clock is back at 5 one
    millisecond later; the packed version polls and returns an
    identifier.  And in both versions, with timestamp 5 recorded and the
    clock read [2 ^ 41] ms after the epoch, the identifier returned has the
    timestamp field [- 2 ^ 41], below 5: the timestamp is not checked
    against the 41 bits of its field. *)
Lemma two_word_version_fails_at_once :
  Split.Generate (split_at 0 0) (mkWorld [tick 5 0] [])
    = Some ((pack 5 4096 0, None), split_at 5 0, mkWorld [] []) /\
  Split.Generate (split_at 5 0)
      (mkWorld [tick 4 100; tick 4 200; tick 4 300; tick 5 1000400] [])
    = Some ((0, Some ErrGenerationClockRollback), split_at 5 0,
            mkWorld [tick 4 200; tick 4 300; tick 5 1000400] []) /\
  Packed.Generate (packed_at 5 0)
      (mkWorld [tick 4 100; tick 4 200; tick 4 300; tick 5 1000400] [])
    = Some ((pack 5 4096 1, None), packed_at 5 1, mkWorld [] []) /\
  Split.Generate (split_at 5 0) (mkWorld [tick (2 ^ 41) 0] [])
    = Some ((- 2 ^ 63 + 4096, None), split_at (2 ^ 41) 0, mkWorld [] []) /\
  Packed.Generate (packed_at 5 0) (mkWorld [tick (2 ^ 41) 0] [])
    = Some ((- 2 ^ 63 + 4096, None), packed_at (2 ^ 41) 0, mkWorld [] []) /\
  id_ts (- 2 ^ 63 + 4096) = - 2 ^ 41.
Proof. repeat split; vm_compute; reflexivity. Qed.

(** C3, amended: when the packed [Generate] reads a relative timestamp
    below the recorded one, it sets a deadline 15 ms after its next
    reading and polls, sleeping 1 ms after every reading that is still
    behind; once a reading is past the deadline with the clock still
    behind it fails with the rollback error, and when the clock has caught
    up within the deadline it goes on with that reading.  The two-word
    [Generate] fails with the rollback error at once.  In neither version
    does a call pack a timestamp below the recorded one; and on a
    generator made for a node id that is not negative, as long as the
    clock stays below [2 ^ 41] ms after the epoch, the timestamp field of
    the identifier returned is not below the recorded timestamp. *)
Theorem rollback_is_waited_out :
  (forall g t clk sl,
     relative (Split.tsepoch g) t < Split.lts g ->
     Split.Generate g (mkWorld (t :: clk) sl)
       = Some ((0, Some ErrGenerationClockRollback), g, mkWorld clk sl)) /\
  (forall g t d rounds c rest sl,
     relative (Packed.tsepoch g) t < Packed.lastTs g ->
     behind (Packed.tsepoch g) (Add d (15 * Millisecond)) (Packed.lastTs g)
       rounds = true ->
     Before c (Add d (15 * Millisecond)) = false ->
     Packed.Generate g (mkWorld (t :: d :: flat_rounds rounds ++ c :: rest) sl)
       = Some ((0, Some ErrGenerationClockRollback), g,
               mkWorld rest (repeat Millisecond (length rounds) ++ sl))) /\
  (forall g t d rounds c t' rest sl,
     relative (Packed.tsepoch g) t < Packed.lastTs g ->
     behind (Packed.tsepoch g) (Add d (15 * Millisecond)) (Packed.lastTs g)
       rounds = true ->
     Before c (Add d (15 * Millisecond)) = true ->
     Packed.lastTs g <= relative (Packed.tsepoch g) t' ->
     Packed.Generate g
       (mkWorld (t :: d :: flat_rounds rounds ++ c :: t' :: rest) sl)
       = Packed.Generate g
           (mkWorld (t' :: rest)
              (repeat Millisecond (length rounds) ++ sl))) /\
  (forall g clk sl ts sq g' w',
     Split.loop g clk sl = Minted ts sq g' w' -> Split.lts g <= ts) /\
  (forall n g clk sl ts sq g' w',
     Packed.loop n g clk sl = Minted ts sq g' w' -> Packed.lastTs g <= ts) /\
  (forall nodeId epoch now g0 g w id g' w',
     0 <= nodeId ->
     Split.NewGenerator nodeId epoch now = (Some g0, None) ->
     Split_reachable (timely epoch) g0 g ->
     timely epoch (clock w) ->
     Split.Generate g w = Some ((id, None), g', w') ->
     Split.lts g <= id_ts id) /\
  (forall nodeId epoch g0 g w id g' w',
     0 <= nodeId ->
     Packed.NewGenerator nodeId epoch = (Some g0, None) ->
     Packed_reachable (timely epoch) g0 g ->
     timely epoch (clock w) ->
     Packed.Generate g w = Some ((id, None), g', w') ->
     Packed.lastTs g <= id_ts id).
Proof.
  repeat split.
  - intros g t clk sl L. unfold Split.Generate. cbn [clock slept Split.loop].
    apply Z.ltb_lt in L. now rewrite L.
  - intros g t d rounds c rest sl L B C.
    unfold Packed.Generate. cbn [clock slept]. simpl length.
    rewrite Packed_loop_round.
    destruct (poll_behind _ _ _ _ _ (c :: rest) sl L B) as (r' & Hr' & E).
    apply Z.ltb_lt in L. rewrite L. unfold Packed.await. rewrite E.
    cbn [Packed.poll]. rewrite C.
    apply Z.ltb_lt in Hr'. now rewrite Hr'.
  - intros g t d rounds c t' rest sl L B C G.
    unfold Packed.Generate. cbn [clock slept]. simpl length.
    rewrite !Packed_loop_round.
    destruct (poll_behind _ _ _ _ _ (c :: t' :: rest) sl L B)
      as (r' & Hr' & E).
    apply Z.ltb_lt in L. rewrite L. unfold Packed.await. rewrite E.
    cbn [Packed.poll]. rewrite C.
    assert (G1 : (relative (Packed.tsepoch g) t' >=? Packed.lastTs g) = true)
      by (apply Z.geb_le; lia).
    assert (G2 : (relative (Packed.tsepoch g) t' <? Packed.lastTs g) = false)
      by (apply Z.ltb_ge; lia).
    rewrite G1, G2. cbn [clock slept].
    destruct (_ =? _); [| reflexivity].
    destruct (_ =? _); [| reflexivity].
    rewrite (Packed_loop_fuel _ (S (length rest)));
      [reflexivity | | lia].
    rewrite length_app. simpl. lia.
  - intros g clk sl ts sq g' w' L.
    apply Split_loop_minted in L. destruct L as (_ & _ & C). lia.
  - intros n g clk sl ts sq g' w' L.
    apply Packed_loop_minted in L. destruct L as (_ & C). lia.
  - intros nodeId epoch now g0 g w id g' w' Hn N R T G.
    apply Split_new_inv in N; [| assumption]. destruct N as (I0 & <- & _).
    apply (Split_reachable_inv nodeId) in R; [| assumption].
    destruct R as (I & E). rewrite <- E in T.
    pose proof (Split_call _ _ _ _ _ _ I T G) as (_ & _ & _ & Y & C).
    apply layout_fields in Y. destruct Y as (-> & _). lia.
  - intros nodeId epoch g0 g w id g' w' Hn N R T G.
    apply Packed_new_inv in N; [| assumption]. destruct N as (I0 & <- & _).
    apply (Packed_reachable_inv nodeId) in R; [| assumption].
    destruct R as (I & E). rewrite <- E in T.
    pose proof (Packed_call _ _ _ _ _ _ I T G) as (_ & _ & _ & Y & C).
    apply layout_fields in Y. destruct Y as (-> & _). lia.
Qed.

(** With timestamp 5 recorded and the clock stuck at 4: two rounds of
    polling, a millisecond of sleep after each, and the rollback error at
    the first reading past the deadline; and with the clock back at 5
    within the deadline, an identifier whose timestamp field is 5. *)
Lemma rollback_is_waited_out_witness :
  relative (Packed.tsepoch (packed_at 5 0)) (tick 4 0)
    < Packed.lastTs (packed_at 5 0) /\
  behind (Packed.tsepoch (packed_at 5 0))
    (Add (tick 4 100) (15 * Millisecond)) (Packed.lastTs (packed_at 5 0))
    [(tick 4 200, tick 4 300); (tick 4 1000400, tick 4 1000500)] = true /\
  Before (tick 4 15000100) (Add (tick 4 100) (15 * Millisecond)) = false /\
  Packed.Generate (packed_at 5 0)
    (mkWorld (tick 4 0 :: tick 4 100
              :: flat_rounds [(tick 4 200, tick 4 300);
                              (tick 4 1000400, tick 4 1000500)]
              ++ tick 4 15000100 :: [tick 5 15000200]) [])
    = Some ((0, Some ErrGenerationClockRollback), packed_at 5 0,
            mkWorld [tick 5 15000200]
              (repeat Millisecond
                 (length [(tick 4 200, tick 4 300);
                          (tick 4 1000400, tick 4 1000500)]) ++ [])) /\
  Packed.lastTs (packed_at 5 0) <= id_ts (pack 5 4096 1).
Proof.
  split; [vm_compute; reflexivity |].
  split; [vm_compute; reflexivity |].
  split; [vm_compute; reflexivity |].
  split.
  - apply (proj1 (proj2 rollback_is_waited_out) (packed_at 5 0)
             (tick 4 0) (tick 4 100)
             [(tick 4 200, tick 4 300); (tick 4 1000400, tick 4 1000500)]
             (tick 4 15000100) [tick 5 15000200] []);
      vm_compute; reflexivity.
  - apply (proj2 (proj2 (proj2 (proj2 (proj2 (proj2
             rollback_is_waited_out)))))
             1 TwitterEpoch (packed_at 0 0) (packed_at 5 0)
             (mkWorld [tick 4 100; tick 4 200; tick 4 300; tick 5 1000400] [])
             (pack 5 4096 1) (packed_at 5 1) (mkWorld [] [])).
    + lia.
    + reflexivity.
    + apply (Packed_reach_call _ _ (packed_at 0 0) (mkWorld [tick 5 0] [])
               (pack 5 4096 0, None) (packed_at 5 0) (mkWorld [] [])).
      * apply Packed_reach_new.
      * apply timely_ticks. reflexivity.
      * vm_compute; reflexivity.
    + apply timely_ticks. reflexivity.
    + vm_compute; reflexivity.
Defined.

(** ** The two versions side by side *)

Lemma corresponds_fields gs gp :
  corresponds gs gp ->
  Packed.lastTs gp = Split.lts gs /\ Packed.lastSeq gp = Split.seq gs.
Proof.
  intros (_ & _ & Ht & Hs & E).
  change snowflakeTimestampBits with 41 in Ht. rewrite mask_value in Hs.
  change snowflakeSequenceBits with 12 in E.
  unfold Packed.lastTs, Packed.lastSeq. rewrite shr_div, land_mask_mod, E.
  change (2 ^ 12) with 4096. split.
  - rewrite Z.div_add_l by lia. rewrite Z.div_small; lia.
  - rewrite Z.add_comm, Z.mod_add by lia. apply Z.mod_small; lia.
Qed.

Lemma corresponds_after gs gp ts sq :
  corresponds gs gp ->
  0 <= ts < 2 ^ 41 -> 0 <= sq <= 4095 ->
  corresponds (Split.set_seq (Split.set_lts gs ts) sq)
    (Packed.set_state gp (Z.lor (Int64.shl ts snowflakeSequenceBits) sq)).
Proof.
  intros (Ee & En & _) Ht Hs.
  pose proof (Packed_state_join gp ts sq ltac:(lia) ltac:(lia)) as (J & _).
  unfold corresponds. rewrite J.
  cbn [Split.tsepoch Split.shiftedNid Split.lts Split.seq Split.set_seq
       Split.set_lts Packed.tsepoch Packed.shiftedNid Packed.set_state].
  rewrite mask_value. change snowflakeTimestampBits with 41.
  change snowflakeSequenceBits with 12. repeat split; try assumption; lia.
Qed.

(** As long as the two-word loop does not fail, the packed loop does the
    same, round for round. *)
Lemma loops_in_step gs gp :
  corresponds gs gp ->
  forall clk sl n,
    (length clk < n)%nat -> timely (Split.tsepoch gs) clk ->
    match Split.loop gs clk sl with
    | Minted ts sq gs' w' =>
      exists gp', Packed.loop n gp clk sl = Minted ts sq gp' w' /\
                  corresponds gs' gp'
    | Failed _ _ _ => True
    | Starved => Packed.loop n gp clk sl = Starved
    end.
Proof.
  intros K. pose proof (corresponds_fields _ _ K) as (Ft & Fs).
  pose proof K as (Ee & En & Ht & Hs & _).
  change snowflakeTimestampBits with 41 in Ht. rewrite mask_value in Hs.
  induction clk as [| t clk IH]; intros sl n Hn T.
  - destruct n; reflexivity.
  - destruct n as [| n]; [simpl in Hn; lia |].
    simpl in Hn. inversion T as [| ? ? Bt T']; subst.
    change snowflakeTimestampBits with 41 in Bt.
    rewrite Packed_loop_round. cbn [Split.loop]. rewrite !cas_same.
    rewrite Ft, Fs, <- Ee.
    destruct (Z.ltb_spec (relative (Split.tsepoch gs) t) (Split.lts gs));
      [exact I |].
    cbn [clock slept].
    destruct (Z.eqb_spec (relative (Split.tsepoch gs) t) (Split.lts gs))
      as [E | N].
    + destruct (Z.eqb_spec (Split.seq gs) snowflakeSequenceMask) as [M | M].
      * apply IH; [lia | assumption].
      * rewrite mask_value in M. rewrite E. unfold Int64.add.
        rewrite wrap_small by (unfold Int64.in_range; lia).
        eexists. split; [reflexivity |].
        replace (Split.set_seq gs (Split.seq gs + 1))
          with (Split.set_seq (Split.set_lts gs (Split.lts gs))
                  (Split.seq gs + 1))
          by (destruct gs; reflexivity).
        apply corresponds_after; [assumption | lia | lia].
    + eexists. split; [reflexivity |].
      apply corresponds_after; [assumption | lia | lia].
Qed.

(** When the packed loop gives up, the two-word loop has given up too. *)
Lemma packed_failure_is_split_failure gs gp :
  corresponds gs gp ->
  forall n clk sl e gp' w',
    Packed.loop n gp clk sl = Failed e gp' w' ->
    exists w'', Split.loop gs clk sl = Failed e gs w''.
Proof.
  intros K. pose proof (corresponds_fields _ _ K) as (Ft & Fs).
  pose proof K as (Ee & _).
  induction n as [| n IH]; intros clk sl e gp' w' L; [discriminate |].
  destruct clk as [| t clk]; [discriminate |].
  pose proof (Packed_loop_failed _ _ _ _ _ _ _ L) as (-> & _).
  rewrite Packed_loop_round in L. cbn [Split.loop]. rewrite !cas_same.
  rewrite Ft, Fs, <- Ee in L.
  destruct (Z.ltb_spec (relative (Split.tsepoch gs) t) (Split.lts gs));
    [eauto |].
  cbn [clock slept] in L.
  destruct (_ =? _); [| discriminate].
  destruct (_ =? _); [| discriminate].
  eapply IH; eassumption.
Qed.

(** C8, as stated, fails: from corresponding states and on the same
    readings, the two-word version fails with the rollback error where the
    packed version, which polls, returns an identifier. *)
Lemma versions_differ_when_clock_is_behind :
  corresponds (split_at 5 0) (packed_at 5 0) /\
  Split.Generate (split_at 5 0)
      (mkWorld [tick 4 0; tick 4 100; tick 4 200; tick 5 1000300] [])
    = Some ((0, Some ErrGenerationClockRollback), split_at 5 0,
            mkWorld [tick 4 100; tick 4 200; tick 5 1000300] []) /\
  Packed.Generate (packed_at 5 0)
      (mkWorld [tick 4 0; tick 4 100; tick 4 200; tick 5 1000300] [])
    = Some ((20975617, None), packed_at 5 1, mkWorld [] []).
Proof.
  split; [| split; vm_compute; reflexivity].
  unfold corresponds. rewrite mask_value.
  change snowflakeTimestampBits with 41. cbn. repeat split; lia.
Qed.

(** C8, amended: from corresponding states and on the same readings, all
    below [2 ^ 41] ms after the epoch, the two versions agree except where
    the two-word version reports a rollback: when the two-word version
    returns an identifier, the packed version returns the same one, has
    taken the same readings and slept the same, and the states correspond
    again; when the two-word version runs out of readings, so does the
    packed one; and when the packed version reports a rollback, so does
    the two-word version. *)
Theorem versions_agree_unless_clock_is_behind :
  forall gs gp w,
    corresponds gs gp ->
    timely (Split.tsepoch gs) (clock w) ->
    (forall id gs' w',
       Split.Generate gs w = Some ((id, None), gs', w') ->
       exists gp',
         Packed.Generate gp w = Some ((id, None), gp', w') /\
         corresponds gs' gp') /\
    (Split.Generate gs w = None -> Packed.Generate gp w = None) /\
    (forall id e gp' w',
       Packed.Generate gp w = Some ((id, Some e), gp', w') ->
       exists w'', Split.Generate gs w = Some ((id, Some e), gs, w'')).
Proof.
  intros gs gp w K T.
  pose proof (loops_in_step gs gp K (clock w) (slept w)
                (S (length (clock w))) ltac:(lia) T) as S.
  pose proof K as (_ & En & _).
  repeat split.
  - intros id gs' w' G. apply Split_Generate_ok in G.
    destruct G as (ts & sq & L & ->). rewrite L in S.
    destruct S as (gp' & Lp & K'). exists gp'. split; [| assumption].
    unfold Packed.Generate. now rewrite Lp, En.
  - unfold Split.Generate, Packed.Generate.
    destruct (Split.loop _ _ _); try discriminate. now rewrite S.
  - intros id e gp' w' G. apply Packed_Generate_err in G.
    destruct G as (L & ->).
    destruct (packed_failure_is_split_failure _ _ K _ _ _ _ _ _ L)
      as (w'' & Ls).
    exists w''. unfold Split.Generate. now rewrite Ls.
Qed.

(** From timestamp 5 and sequence 4095, with the clock at 5 and then at 6,
    both versions sleep once and return timestamp 6 with sequence 0. *)
Lemma versions_agree_unless_clock_is_behind_witness :
  exists gp',
    Packed.Generate (packed_at 5 4095)
        (mkWorld [tick 5 0; tick 6 1000000] [])
      = Some ((pack 6 4096 0, None), gp', mkWorld [] [Millisecond]) /\
    corresponds (split_at 6 0) gp'.
Proof.
  assert (K : corresponds (split_at 5 4095) (packed_at 5 4095)).
  { unfold corresponds. rewrite mask_value.
    change snowflakeTimestampBits with 41. cbn. repeat split; lia. }
  apply (proj1 (versions_agree_unless_clock_is_behind
                  (split_at 5 4095) (packed_at 5 4095)
                  (mkWorld [tick 5 0; tick 6 1000000] []) K
                  (timely_ticks [tick 5 0; tick 6 1000000] eq_refl))
           (pack 6 4096 0) (split_at 6 0) (mkWorld [] [Millisecond])).
  vm_compute; reflexivity.
Defined.

(** ** Concurrent callers of the two-word generator *)

(** C7: two callers of one two-word generator get the same identifier.
    In millisecond 10 [caller_a] wins the compare-and-swap on [lts],
    [caller_b] then sees the new timestamp with the old sequence number 0
    and returns sequence 1, [caller_a] stores sequence 0, and the next call
    returns sequence 1 again. *)
Theorem two_word_callers_collide :
  Split.NewGenerator 1 TwitterEpoch (at_ms TwitterEpoch 0)
    = (Some (split_at 0 0), None) /\
  minted_ids (SplitMachine.history
                (SplitMachine.run (SplitMachine.init (split_at 0 0))
                   schedule_collide))
    = [pack 10 4096 0; pack 10 4096 1; pack 10 4096 1] /\
  ~ NoDup (minted_ids (SplitMachine.history
                         (SplitMachine.run (SplitMachine.init (split_at 0 0))
                            schedule_collide))).
Proof.
  split; [reflexivity |].
  assert (E : minted_ids (SplitMachine.history
                (SplitMachine.run (SplitMachine.init (split_at 0 0))
                   schedule_collide))
              = [pack 10 4096 0; pack 10 4096 1; pack 10 4096 1])
    by (vm_compute; reflexivity).
  split; [exact E |]. rewrite E. intros D.
  inversion D as [| ? ? _ D1]; subst.
  inversion D1 as [| ? ? N _]; subst.
  apply N. left. reflexivity.
Qed.

(** C1: in the order of the winning compare-and-swaps, the timestamps of
    a two-word generator go backwards.  [caller_a] reads timestamp 10 and
    sequence 1 and is held; [caller_b] moves the generator to timestamp 11
    and brings the sequence number back to 1; the compare-and-swap of
    [caller_a] on the sequence number then succeeds and it returns
    timestamp 10, sequence 2, after timestamp 11, sequence 1. *)
Theorem two_word_callers_go_backwards :
  Split.NewGenerator 1 TwitterEpoch (at_ms TwitterEpoch 0)
    = (Some (split_at 0 0), None) /\
  minted (SplitMachine.history
            (SplitMachine.run (SplitMachine.init (split_at 0 0))
               schedule_backwards))
    = [(10, 0); (10, 1); (11, 0); (11, 1); (10, 2)] /\
  ~ chain lex_le
      (minted (SplitMachine.history
                 (SplitMachine.run (SplitMachine.init (split_at 0 0))
                    schedule_backwards))) /\
  ~ chain follows
      (minted (SplitMachine.history
                 (SplitMachine.run (SplitMachine.init (split_at 0 0))
                    schedule_backwards))).
Proof.
  assert (E : minted (SplitMachine.history
                (SplitMachine.run (SplitMachine.init (split_at 0 0))
                   schedule_backwards))
              = [(10, 0); (10, 1); (11, 0); (11, 1); (10, 2)])
    by (vm_compute; reflexivity).
  split; [reflexivity |].
  split; [exact E |]. rewrite E.
  unfold lex_le, follows. simpl. split; intros H; decompose [and or] H; lia.
Qed.

(** One step of one caller keeps the sequence number within 12 bits. *)
Lemma split_machine_step c tid now :
  split_machine_inv c -> split_machine_inv (SplitMachine.step c tid now).
Proof.
  intros (Hs & Lo & Ev). pose proof (Lo tid) as Lt.
  rewrite mask_value in *.
  assert (Keep : forall g p h,
    0 <= Split.seq g <= 4095 ->
    match p with
    | SplitMachine.AtCasSeq _ sq => 0 <= sq < 4095
    | _ => True
    end ->
    Forall (fun m => 0 <= snd (fst m) <= 4095) (mints h) ->
    split_machine_inv
      (SplitMachine.mkConfig g (upd (SplitMachine.pcs c) tid p) h)).
  { intros g p h Hg Hp Hh. unfold split_machine_inv. rewrite mask_value.
    split; [exact Hg | split; [| exact Hh]].
    intros t. cbn [SplitMachine.pcs]. unfold upd.
    destruct (Nat.eqb t tid); [exact Hp | apply Lo]. }
  unfold SplitMachine.step.
  destruct (SplitMachine.pcs c tid) as [| r | r l | | r sq | r l |] eqn:P.
  - now apply Keep.
  - now apply Keep.
  - destruct (_ <? _); [now apply Keep |].
    destruct (_ =? _); [| now apply Keep].
    destruct (Z.eqb_spec (Split.seq (SplitMachine.gen c))
                snowflakeSequenceMask) as [M | M]; [now apply Keep |].
    rewrite mask_value in M. apply Keep; auto. lia.
  - now apply Keep.
  - assert (E : Int64.add sq 1 = sq + 1)
      by (apply wrap_small; unfold Int64.in_range; lia).
    unfold CompareAndSwap. destruct (_ =? _); [| now apply Keep].
    rewrite E. apply Keep; cbn; auto; [lia |].
    constructor; [cbn; lia | exact Ev].
  - unfold CompareAndSwap. destruct (_ =? _); [| now apply Keep].
    apply Keep; cbn; auto. constructor; [cbn; lia | exact Ev].
  - apply Keep; cbn; auto. lia.
Qed.

(** X10: whatever the interleaving of callers, the clock and the node id,
    no call of the two-word generator returns a sequence number outside
    0..4095, once the generator holds one within this range, as a new
    generator does. *)
Lemma two_word_sequence_bounded g0 sched :
  0 <= Split.seq g0 <= snowflakeSequenceMask ->
  Forall (fun m => 0 <= snd (fst m) <= snowflakeSequenceMask)
    (mints (SplitMachine.history
              (SplitMachine.run (SplitMachine.init g0) sched))).
Proof.
  intros H0.
  assert (I0 : split_machine_inv (SplitMachine.init g0)).
  { split; [exact H0 | split; [intros tid; exact I | constructor]]. }
  assert (R : forall c, split_machine_inv c ->
                        split_machine_inv (SplitMachine.run c sched)).
  { induction sched as [| [tid now] sched IH]; intros c Ic; [exact Ic |].
    apply IH. now apply split_machine_step. }
  exact (proj2 (proj2 (R _ I0))).
Qed.

(** ** Concurrent callers of the packed generator *)

Section Chains.
Context {A : Type} (R : A -> A -> Prop).

Lemma chain_tail a l : chain R (a :: l) -> chain R l.
Proof. destruct l; simpl; tauto. Qed.

Lemma chain_snoc l a b :
  chain R (l ++ [a]) -> R a b -> chain R ((l ++ [a]) ++ [b]).
Proof.
  induction l as [| x l IH]; intros C Rab; [simpl; auto |].
  destruct l as [| y l].
  - simpl in *. tauto.
  - simpl in *. destruct C as [Rxy C]. split; [assumption |].
    apply IH; assumption.
Qed.

(** A list chained from the most recent element back is chained, once
    reversed, from the oldest on. *)
Lemma chain_rev l : chain (fun a b => R b a) l -> chain R (rev l).
Proof.
  induction l as [| a l IH]; intros C; [exact I |].
  destruct l as [| b l]; [exact I |].
  destruct C as [Rba C]. specialize (IH C). simpl in *.
  apply chain_snoc; assumption.
Qed.

Lemma chain_weaken (R' : A -> A -> Prop) l :
  (forall a b, R a b -> R' a b) -> chain R l -> chain R' l.
Proof.
  intros W. induction l as [| a l IH]; [auto |].
  destruct l as [| b l]; [auto |].
  intros [Rab C]. split; auto.
Qed.

Lemma chain_Forall a l :
  (forall x y z, R x y -> R y z -> R x z) ->
  chain R (a :: l) -> Forall (R a) l.
Proof.
  intros Tr. revert a. induction l as [| b l IH]; intros a C; [constructor |].
  destruct C as [Rab C]. constructor; [assumption |].
  specialize (IH b C).
  eapply Forall_impl; [| exact IH]. intros c Rbc. eapply Tr; eassumption.
Qed.

(** A chain of a strict order has no element twice. *)
Lemma chain_NoDup l :
  (forall x y z, R x y -> R y z -> R x z) -> (forall x, ~ R x x) ->
  chain R l -> NoDup l.
Proof.
  intros Tr Irr. induction l as [| a l IH]; intros C; constructor.
  - intros I. pose proof (chain_Forall a l Tr C) as F.
    rewrite Forall_forall in F. exact (Irr a (F a I)).
  - apply IH. exact (chain_tail a l C).
Qed.
End Chains.

Lemma chain_map {A B : Type} (f : A -> B) (R : B -> B -> Prop) l :
  chain (fun a b => R (f a) (f b)) l -> chain R (map f l).
Proof.
  induction l as [| a l IH]; [auto |].
  destruct l as [| b l]; [auto |].
  intros [Rab C]. split; [assumption | now apply IH].
Qed.

Lemma follows_lex_le p q :
  0 <= snd p -> follows p q -> lex_le p q.
Proof. unfold follows, lex_le. lia. Qed.

Lemma upd_ok (f : nat -> PackedMachine.pc) i p :
  (forall t, local_ok (f t)) -> local_ok p ->
  forall t, local_ok (upd f i p t).
Proof. intros F P t. unfold upd. destruct (Nat.eqb t i); auto. Qed.

(** Lines 85-97 leave the caller with a candidate that follows the state
    it read. *)
Lemma choose_ok r prev :
  r < 2 ^ 41 -> Int64.shr prev snowflakeSequenceBits <= r ->
  local_ok (PackedMachine.choose r prev).
Proof.
  intros Hr Hp. unfold PackedMachine.choose.
  destruct (Z.eqb_spec r (Int64.shr prev snowflakeSequenceBits)) as [E | N].
  - destruct (Z.eqb_spec (Z.land prev snowflakeSequenceMask)
                snowflakeSequenceMask) as [M | M]; [exact I |].
    left. repeat split; try assumption.
    rewrite land_mask_mod, mask_value in *.
    pose proof (Z.mod_pos_bound prev 4096 ltac:(lia)).
    unfold Int64.add. apply wrap_small. unfold Int64.in_range. lia.
  - right. change snowflakeTimestampBits with 41. repeat split; lia.
Qed.

(** One step of one caller keeps the invariant. *)
Lemma machine_step nodeId epoch c tid now :
  machine_inv nodeId epoch c ->
  relative epoch now < 2 ^ 41 ->
  machine_inv nodeId epoch (PackedMachine.step c tid now).
Proof.
  intros (Pin & Ee & Lo & Ch & La & Hd) Hnow.
  pose proof (Lo tid) as Lt.
  assert (Keep : forall p,
    local_ok p ->
    machine_inv nodeId epoch
      (PackedMachine.mkConfig (PackedMachine.gen c)
         (upd (PackedMachine.pcs c) tid p) (PackedMachine.history c))).
  { intros p Hp.
    split; [exact Pin | split; [exact Ee | split; [now apply upd_ok |]]].
    split; [exact Ch | split; [exact La | exact Hd]]. }
  assert (Fail : forall e,
    machine_inv nodeId epoch
      (PackedMachine.mkConfig (PackedMachine.gen c)
         (upd (PackedMachine.pcs c) tid PackedMachine.AtNow)
         (EvFailed tid e :: PackedMachine.history c))).
  { intros e.
    split; [exact Pin | split; [exact Ee | split; [now apply upd_ok |]]].
    split; [exact Ch | split; [exact La | exact Hd]]. }
  assert (Verdict : forall r prev,
    r < 2 ^ 41 ->
    machine_inv nodeId epoch
      (if r <? Int64.shr prev snowflakeSequenceBits
       then PackedMachine.mkConfig (PackedMachine.gen c)
              (upd (PackedMachine.pcs c) tid PackedMachine.AtNow)
              (EvFailed tid ErrGenerationClockRollback
                 :: PackedMachine.history c)
       else PackedMachine.mkConfig (PackedMachine.gen c)
              (upd (PackedMachine.pcs c) tid (PackedMachine.choose r prev))
              (PackedMachine.history c))).
  { intros r prev Hr.
    destruct (Z.ltb_spec r (Int64.shr prev snowflakeSequenceBits));
      [apply Fail | apply Keep, choose_ok; assumption]. }
  unfold PackedMachine.step.
  destruct (PackedMachine.pcs c tid) as
    [| r | r prev | r prev dl | prev dl | r prev dl | | prev nextTs nextSeq]
    eqn:P; cbn [local_ok] in Lt;
    change snowflakeTimestampBits with 41 in Lt.
  - apply Keep. cbn. now rewrite Ee.
  - destruct (Z.ltb_spec r (Int64.shr (Packed.state (PackedMachine.gen c))
                              snowflakeSequenceBits)).
    + apply Keep. exact Lt.
    + apply Keep, choose_ok; assumption.
  - apply Keep. exact Lt.
  - destruct (Before now dl); [apply Keep; exact I |].
    apply Verdict. exact Lt.
  - rewrite Ee.
    destruct (Z.geb_spec (relative epoch now)
                (Int64.shr prev snowflakeSequenceBits)).
    + apply Verdict. exact Hnow.
    + apply Keep. exact Hnow.
  - apply Keep. exact Lt.
  - apply Keep. exact I.
  - unfold CompareAndSwap.
    destruct (Z.eqb_spec (Packed.state (PackedMachine.gen c)) prev)
      as [E | N]; [| apply Keep; exact I].
    subst prev. set (g := PackedMachine.gen c) in *.
    pose proof (Packed_inv_fields _ _ Pin) as (Ht & Hq).
    fold (Packed.lastTs g) in Lt. fold (Packed.lastSeq g) in Lt.
    rewrite mask_value in Lt.
    assert (R : 0 <= nextTs < 2 ^ 41 /\ 0 <= nextSeq <= 4095 /\
                follows (Packed.lastTs g, Packed.lastSeq g)
                  (nextTs, nextSeq)).
    { unfold follows. cbn [fst snd]. lia. }
    destruct R as (Rt & Rq & Rf).
    pose proof (Packed_state_join g nextTs nextSeq ltac:(lia) ltac:(lia))
      as J. cbv zeta in J. destruct J as (J1 & J2 & J3).
    destruct Pin as (Hn & Hs & Hst).
    change snowflakeNodeIdBits with 10 in Hn.
    change snowflakeNodeIdShift with 12 in Hs.
    assert (Y : layout (pack nextTs (Packed.shiftedNid g) nextSeq)
                  nextTs nodeId nextSeq).
    { rewrite Hs. apply pack_layout; lia. }
    unfold machine_inv.
    cbn [PackedMachine.gen PackedMachine.pcs PackedMachine.history mints
         flat_map app].
    fold (mints (PackedMachine.history c)).
    rewrite J2, J3.
    split; [| split; [| split; [| split; [| split]]]].
    + unfold Packed_inv. rewrite J1.
      change (snowflakeTimestampBits + snowflakeSequenceBits) with 53.
      change snowflakeNodeIdBits with 10.
      change snowflakeNodeIdShift with 12.
      cbn [Packed.shiftedNid Packed.set_state].
      repeat split; solve [lia | exact Hs].
    + exact Ee.
    + apply upd_ok; [assumption | exact I].
    + destruct (mints (PackedMachine.history c)) as [| m ms] eqn:M;
        [exact I |].
      split; [| assumption].
      inversion La as [| ? ? Ym _]; subst.
      unfold precedes. cbn [fst snd]. rewrite Hd. split; [assumption |].
      apply layout_sum in Ym, Y. rewrite Ym, Y, Hd. cbn [fst snd].
      unfold follows in Rf. cbn [fst snd] in Rf. lia.
    + constructor; assumption.
    + reflexivity.
Qed.

Lemma machine_run nodeId epoch sched : forall c,
  machine_inv nodeId epoch c ->
  Forall (fun s => relative epoch (snd s) < 2 ^ 41) sched ->
  machine_inv nodeId epoch (PackedMachine.run c sched).
Proof.
  induction sched as [| [tid now] sched IH]; intros c I F; [exact I |].
  inversion F as [| ? ? Hn F']; subst.
  apply IH; [| assumption]. now apply machine_step.
Qed.

Lemma machine_init nodeId epoch g0 :
  0 <= nodeId ->
  Packed.NewGenerator nodeId epoch = (Some g0, None) ->
  machine_inv nodeId epoch (PackedMachine.init g0).
Proof.
  intros Hn N. apply Packed_new_inv in N; [| assumption].
  destruct N as (I & E & _).
  split; [exact I | split; [exact E | split; [intros tid; exact Logic.I |]]].
  split; [exact Logic.I | split; [constructor | exact Logic.I]].
Qed.

(** X8: the packed generator under any number of concurrent callers, with
    the clock below [2 ^ 41] ms after the epoch and a node id that is not
    negative: in the order of the winning compare-and-swaps every call
    keeps the timestamp and takes the next sequence number, or takes a
    later timestamp; the pairs are non-decreasing in lexicographic order;
    every identifier has the layout of its fields; and no identifier is
    returned twice. *)
Theorem packed_callers_ordered_and_distinct nodeId epoch g0 sched :
  0 <= nodeId ->
  Packed.NewGenerator nodeId epoch = (Some g0, None) ->
  Forall (fun s => relative epoch (snd s) < 2 ^ 41) sched ->
  let h := PackedMachine.history
             (PackedMachine.run (PackedMachine.init g0) sched) in
  chain follows (minted h) /\
  chain lex_le (minted h) /\
  Forall (fun m => layout (snd m) (fst (fst m)) nodeId (snd (fst m)))
    (mints h) /\
  NoDup (minted_ids h).
Proof.
  intros Hn N F h.
  pose proof (machine_run nodeId epoch sched _
                (machine_init _ _ _ Hn N) F) as (_ & _ & _ & Ch & La & _).
  fold h in Ch, La.
  assert (C1 : chain follows (minted h)).
  { unfold minted. apply chain_rev, chain_map.
    eapply chain_weaken; [| exact Ch]. intros a b [Fo _]. exact Fo. }
  repeat split; try assumption.
  - unfold minted. apply chain_rev, chain_map.
    assert (Q : forall l,
      Forall (fun m => layout (snd m) (fst (fst m)) nodeId (snd (fst m))) l ->
      chain (fun a b => precedes b a) l ->
      chain (fun a b => lex_le (fst b) (fst a)) l).
    { induction l as [| a l IHl]; [auto |].
      destruct l as [| b l]; [auto |].
      intros Fa [Pab C]. inversion Fa as [| ? ? _ Fb]; subst.
      split; [| now apply IHl].
      inversion Fb as [| ? ? Yb _]; subst.
      destruct Pab as [Fo _]. apply follows_lex_le; [| assumption].
      destruct Yb as (_ & Hs & _). lia. }
    now apply Q.
  - unfold minted_ids. apply (chain_NoDup Z.lt); try (intros; lia).
    apply chain_rev, chain_map.
    eapply chain_weaken; [| exact Ch]. intros a b [_ Lt]. exact Lt.
Qed.

(** * Beyond the claims: packing, the first call, the clock *)

(** ** Fields in and out of an identifier *)

(** X1: [pack], with the node id shifted as [NewGenerator] shifts it, and
    the accessors of the tests are inverse to each other on fields within
    their widths: timestamp, node id and sequence number come out as they
    went in, and the identifier is a non-negative [int64]. *)
Theorem fields_round_trip (ts nodeId sq : Z) :
  0 <= ts < 2 ^ snowflakeTimestampBits ->
  0 <= nodeId < 2 ^ snowflakeNodeIdBits ->
  0 <= sq < 2 ^ snowflakeSequenceBits ->
  id_ts (pack ts (Int64.shl nodeId snowflakeNodeIdShift) sq) = ts /\
  id_node (pack ts (Int64.shl nodeId snowflakeNodeIdShift) sq) = nodeId /\
  id_seq (pack ts (Int64.shl nodeId snowflakeNodeIdShift) sq) = sq /\
  0 <= pack ts (Int64.shl nodeId snowflakeNodeIdShift) sq < 2 ^ 63.
Proof.
  change snowflakeTimestampBits with 41. change snowflakeNodeIdBits with 10.
  change snowflakeSequenceBits with 12. change snowflakeNodeIdShift with 12.
  intros Ht Hn Hs.
  rewrite shl_small by (unfold Int64.in_range; lia).
  apply layout_fields, pack_layout; assumption.
Qed.

(** The boundary values of the three fields. *)
Lemma fields_round_trip_witness :
  id_ts (pack (2 ^ 41 - 1) (Int64.shl 1023 snowflakeNodeIdShift) 4095)
    = 2 ^ 41 - 1 /\
  id_node (pack (2 ^ 41 - 1) (Int64.shl 1023 snowflakeNodeIdShift) 4095)
    = 1023 /\
  id_seq (pack (2 ^ 41 - 1) (Int64.shl 1023 snowflakeNodeIdShift) 4095)
    = 4095 /\
  0 <= pack (2 ^ 41 - 1) (Int64.shl 1023 snowflakeNodeIdShift) 4095 < 2 ^ 63.
Proof.
  apply (fields_round_trip (2 ^ 41 - 1) 1023 4095); vm_compute; split; congruence.
Defined.

(** Whatever the timestamp, the node id and the sequence number sit in
    the low 22 bits untouched: a timestamp too wide for its field is cut
    at the top, it does not spill downwards. *)
Lemma pack_low_bits (ts nodeId sq : Z) :
  0 <= nodeId < 2 ^ 10 -> 0 <= sq < 2 ^ 12 ->
  exists a, pack ts (nodeId * 2 ^ 12) sq = (a * 2 ^ 10 + nodeId) * 2 ^ 12 + sq.
Proof.
  intros Hn Hs. unfold pack.
  destruct (shl_multiple ts snowflakeTimestampShift
              ltac:(cbv; split; congruence)) as [a ->].
  exists a. change snowflakeTimestampShift with 22.
  replace (a * 2 ^ 22) with ((a * 2 ^ 10) * 2 ^ 12) by lia.
  rewrite <- !Z.shiftl_mul_pow2, <- Z.shiftl_lor by lia.
  rewrite !Z.shiftl_mul_pow2 by lia.
  rewrite (lor_shifted_small a nodeId 10) by lia.
  rewrite lor_shifted_small by lia. reflexivity.
Qed.

Lemma id_node_pack (ts nodeId sq : Z) :
  0 <= nodeId < 2 ^ 10 -> 0 <= sq <= snowflakeSequenceMask ->
  id_node (pack ts (Int64.shl nodeId snowflakeNodeIdShift) sq) = nodeId.
Proof.
  rewrite mask_value. intros Hn Hs. change snowflakeNodeIdShift with 12.
  rewrite shl_small by (unfold Int64.in_range; lia).
  destruct (pack_low_bits ts nodeId sq Hn ltac:(lia)) as [a ->].
  unfold id_node, Int64.shr. change snowflakeNodeIdShift with 12.
  change (Z.shiftl 1 snowflakeNodeIdBits - 1) with (Z.ones 10).
  rewrite Z.land_ones, Z.shiftr_div_pow2 by lia.
  rewrite Z.div_add_l by lia. rewrite (Z.div_small sq) by lia.
  rewrite Z.add_0_r, Z.add_comm, Z.mod_add by lia.
  apply Z.mod_small; lia.
Qed.

(** X2: every identifier of a generator that [NewGenerator] made for a
    node id from 0 to 1023 carries that node id in bits 12 to 21, whatever
    the clock reads, also past the 41 bits of the timestamp; in the
    two-word and in the packed version. *)
Theorem node_field_is_node_id :
  (forall nodeId epoch now g0 g w id g' w',
     0 <= nodeId ->
     Split.NewGenerator nodeId epoch now = (Some g0, None) ->
     Split_reachable (fun _ => True) g0 g ->
     Split.Generate g w = Some ((id, None), g', w') ->
     id_node id = nodeId) /\
  (forall nodeId epoch g0 g w id g' w',
     0 <= nodeId ->
     Packed.NewGenerator nodeId epoch = (Some g0, None) ->
     Packed_reachable (fun _ => True) g0 g ->
     Packed.Generate g w = Some ((id, None), g', w') ->
     id_node id = nodeId).
Proof.
  split.
  - intros nodeId epoch now g0 g w id g' w' Hn N R G.
    unfold Split.NewGenerator in N.
    change (Z.shiftl 1 snowflakeNodeIdBits) with 1024 in N.
    destruct (Z.geb_spec nodeId 1024); [discriminate |]. injection N as <-.
    apply (Split_reachable_seq _ _ g) in R;
      [| simpl; rewrite mask_value; lia].
    destruct R as (Hs & Hi & _). simpl in Hi.
    apply Split_Generate_ok in G. destruct G as (ts & sq & L & ->).
    apply Split_loop_minted in L. destruct L as (_ & _ & C).
    rewrite Hi. apply id_node_pack; [lia |].
    rewrite mask_value in *.
    destruct C as [(_ & -> & M) | (_ & ->)]; [| lia].
    unfold Int64.add. rewrite wrap_small by (unfold Int64.in_range; lia).
    lia.
  - intros nodeId epoch g0 g w id g' w' Hn N R G.
    unfold Packed.NewGenerator in N.
    change (Z.shiftl 1 snowflakeNodeIdBits) with 1024 in N.
    destruct (Z.geb_spec nodeId 1024); [discriminate |]. injection N as <-.
    apply Packed_reachable_config in R. destruct R as (Hi & _). simpl in Hi.
    apply Packed_Generate_ok in G. destruct G as (ts & sq & L & ->).
    apply Packed_loop_minted in L. destruct L as (_ & C).
    rewrite Hi. apply id_node_pack; [lia |].
    pose proof (lastSeq_range g) as B. rewrite mask_value in *.
    destruct C as [(_ & -> & M) | (_ & -> & _)]; [| lia].
    unfold Int64.add. rewrite wrap_small by (unfold Int64.in_range; lia).
    lia.
Qed.

(** A generator for node 1 that reads the clock [2 ^ 41] ms after its
    epoch: the identifier is negative, its node field is still 1. *)
Lemma node_field_is_node_id_witness : id_node (- 2 ^ 63 + 4096) = 1.
Proof.
  apply (proj2 node_field_is_node_id 1 TwitterEpoch (packed_at 0 0)
           (packed_at 0 0) (mkWorld [tick (2 ^ 41) 0] []) (- 2 ^ 63 + 4096)
           (packed_at (2 ^ 41) 0) (mkWorld [] [])).
  - lia.
  - reflexivity.
  - apply Packed_reach_new.
  - vm_compute; reflexivity.
Defined.

(** ** The first call of a new generator *)

(** X3: [NewGenerator] for a node id from 0 to 1023 followed by
    [MustGenerate] with the clock after the epoch, by less than [2 ^ 41]
    ms: the call returns on its first reading, without sleeping and
    without panic; the identifier is [ts * 2 ^ 22 + nodeId * 2 ^ 12] for
    the relative timestamp [ts] of that reading, it is above 0, its
    sequence field is 0 and its node field is the node id.  In the
    two-word and in the packed version. *)
Theorem first_identifier (nodeId epoch : Z) (now t : Time)
    (clk : list Time) (sl : list Z) :
  0 <= nodeId <= 1023 ->
  0 < relative epoch t < 2 ^ snowflakeTimestampBits ->
  let id := relative epoch t * 2 ^ 22 + nodeId * 2 ^ 12 in
  (exists g0 g1,
     Split.NewGenerator nodeId epoch now = (Some g0, None) /\
     Split.MustGenerate g0 (mkWorld (t :: clk) sl)
       = Some (Returned id, g1, mkWorld clk sl) /\
     Split.lts g1 = relative epoch t /\ Split.seq g1 = 0) /\
  (exists g0 g1,
     Packed.NewGenerator nodeId epoch = (Some g0, None) /\
     Packed.MustGenerate g0 (mkWorld (t :: clk) sl)
       = Some (Returned id, g1, mkWorld clk sl) /\
     Packed.lastTs g1 = relative epoch t /\ Packed.lastSeq g1 = 0) /\
  0 < id /\ id_ts id = relative epoch t /\ id_node id = nodeId /\
  id_seq id = 0.
Proof.
  change snowflakeTimestampBits with 41. intros Hn Hr id.
  assert (Ep : pack (relative epoch t) (nodeId * 2 ^ 12) 0 = id)
    by (unfold id; rewrite pack_sum by lia; lia).
  assert (Lt : (relative epoch t <? 0) = false) by (apply Z.ltb_ge; lia).
  assert (Ne : (relative epoch t =? 0) = false) by (apply Z.eqb_neq; lia).
  split; [| split].
  - unfold Split.NewGenerator.
    change (Z.shiftl 1 snowflakeNodeIdBits) with 1024.
    destruct (Z.geb_spec nodeId 1024); [lia |].
    change snowflakeNodeIdShift with 12.
    rewrite shl_small by (unfold Int64.in_range; lia).
    eexists. eexists. split; [reflexivity |].
    unfold Split.MustGenerate, Split.Generate.
    cbn [clock slept Split.loop Split.tsepoch Split.lts Split.seq
         Split.shiftedNid].
    rewrite Lt, Ne, cas_same, Ep. split; [reflexivity |]. split; reflexivity.
  - unfold Packed.NewGenerator.
    change (Z.shiftl 1 snowflakeNodeIdBits) with 1024.
    destruct (Z.geb_spec nodeId 1024); [lia |].
    change snowflakeNodeIdShift with 12.
    rewrite shl_small by (unfold Int64.in_range; lia).
    eexists. eexists. split; [reflexivity |].
    unfold Packed.MustGenerate, Packed.Generate.
    cbn [clock slept length]. rewrite Packed_loop_round.
    change (Packed.lastTs {| Packed.tsepoch := epoch;
                             Packed.shiftedNid := nodeId * 2 ^ 12;
                             Packed.state := 0 |}) with 0.
    cbn [Packed.tsepoch Packed.shiftedNid].
    rewrite Lt, Ne, Ep. split; [reflexivity |].
    pose proof (Packed_state_join
                  {| Packed.tsepoch := epoch;
                     Packed.shiftedNid := nodeId * 2 ^ 12;
                     Packed.state := 0 |} (relative epoch t) 0
                  ltac:(lia) ltac:(lia)) as J.
    cbv zeta in J. tauto.
  - assert (Y : layout id (relative epoch t) nodeId 0)
      by (rewrite <- Ep; apply pack_layout; lia).
    apply layout_fields in Y. unfold id in *. lia.
Qed.

(** Node 1 on the Twitter epoch, first call 10 ms after it. *)
Lemma first_identifier_witness :
  Packed.MustGenerate (packed_at 0 0) (mkWorld [tick 10 0] [])
    = Some (Returned 41947136, packed_at 10 0, mkWorld [] []) /\
  id_ts 41947136 = 10 /\ id_node 41947136 = 1 /\ id_seq 41947136 = 0.
Proof.
  pose proof (first_identifier 1 TwitterEpoch (at_ms TwitterEpoch 0)
                (tick 10 0) [] []
                ltac:(lia) ltac:(vm_compute; split; reflexivity)) as H.
  cbv zeta in H. destruct H as (_ & _ & _ & A & B & C).
  split; [vm_compute; reflexivity |].
  split; [exact A | split; [exact B | exact C]].
Defined.

(** ** The timestamp of an identifier and the clock *)

Lemma Split_loop_last g clk sl ts sq g' w' :
  Split.loop g clk sl = Minted ts sq g' w' ->
  exists used t,
    clk = used ++ t :: clock w' /\ ts = relative (Split.tsepoch g) t.
Proof.
  revert sl. induction clk as [| t clk IH]; intros sl; simpl; [discriminate |].
  rewrite !cas_same.
  destruct (_ <? _); [discriminate |].
  destruct (_ =? _).
  - destruct (_ =? _).
    + intros L. apply IH in L. destruct L as (used & t' & -> & E).
      now exists (t :: used), t'.
    + intros [= <- <- <- <-]. now exists [], t.
  - intros [= <- <- <- <-]. now exists [], t.
Qed.

Lemma poll_last e dl p clk : forall r sl r' w,
  Packed.poll e dl p r clk sl = Some (r', w) ->
  r < p -> p <= r' ->
  exists used t, clk = used ++ t :: clock w /\ r' = relative e t.
Proof.
  induction clk as [| c | c t clk2 IH] using list_pairs_ind;
    intros r sl r' w; simpl; try discriminate.
  - destruct (Before c dl); [discriminate |]. intros [= <- <-]. lia.
  - destruct (Before c dl); [| intros [= <- <-]; lia].
    destruct (Z.geb_spec (relative e t) p).
    + intros [= <- <-] _ _. now exists [c], t.
    + intros P _ Hp. apply IH in P; [| lia | assumption].
      destruct P as (used & t' & -> & E). now exists (c :: t :: used), t'.
Qed.

Lemma await_last e p r clk sl r' w :
  Packed.await e p r clk sl = Some (inl r', w) ->
  r < p ->
  exists used t, clk = used ++ t :: clock w /\ r' = relative e t.
Proof.
  unfold Packed.await. destruct clk as [| d clk1]; [discriminate |].
  destruct (Packed.poll _ _ _ _ _ _) as [[r1 w1] |] eqn:P; [| discriminate].
  destruct (Z.ltb_spec r1 p); [discriminate |].
  intros [= <- <-] Hr. apply poll_last in P; [| assumption | assumption].
  destruct P as (used & t & -> & E). now exists (d :: used), t.
Qed.

Lemma Packed_loop_last n g clk sl ts sq g' w' :
  Packed.loop n g clk sl = Minted ts sq g' w' ->
  exists used t,
    clk = used ++ t :: clock w' /\ ts = relative (Packed.tsepoch g) t.
Proof.
  revert clk sl. induction n as [| n IH]; intros clk sl; [discriminate |].
  destruct clk as [| t clk0]; [discriminate |].
  rewrite Packed_loop_round.
  destruct (Z.ltb_spec (relative (Packed.tsepoch g) t) (Packed.lastTs g))
    as [L | G].
  - destruct (Packed.await _ _ _ _ _) as [[[r | err] w] |] eqn:A;
      try discriminate.
    apply await_last in A; [| assumption].
    destruct A as (used & t1 & -> & Er).
    destruct (Z.eqb_spec r (Packed.lastTs g)) as [E | N].
    + destruct (_ =? _).
      * intros R. apply IH in R. destruct R as (used' & t' & Ec & Et).
        exists (t :: used ++ t1 :: used'), t'. split; [| assumption].
        rewrite Ec. simpl. now rewrite <- app_assoc.
      * intros [= <- <- <- <-]. exists (t :: used), t1.
        split; [reflexivity | congruence].
    + intros [= <- <- <- <-]. now exists (t :: used), t1.
  - cbn [clock slept].
    destruct (Z.eqb_spec (relative (Packed.tsepoch g) t) (Packed.lastTs g))
      as [E | N].
    + destruct (_ =? _).
      * intros R. apply IH in R. destruct R as (used' & t' & -> & Et).
        now exists (t :: used'), t'.
      * intros [= <- <- <- <-]. now exists [], t.
    + intros [= <- <- <- <-]. now exists [], t.
Qed.

(** X4: the timestamp field of an identifier, added to the epoch, is the
    wall-clock millisecond of the last reading the call took, the rounds
    spent waiting for the next millisecond or for the clock to catch up
    included; for a node id that is not negative and readings less than
    [2 ^ 41] ms after the epoch, in both versions. *)
Theorem timestamp_is_last_reading :
  (forall nodeId epoch now g0 g w id g' w',
     0 <= nodeId ->
     Split.NewGenerator nodeId epoch now = (Some g0, None) ->
     Split_reachable (timely epoch) g0 g ->
     timely epoch (clock w) ->
     Forall (fun t => Int64.in_range (UnixMilli t - epoch)) (clock w) ->
     Split.Generate g w = Some ((id, None), g', w') ->
     exists used t,
       clock w = used ++ t :: clock w' /\ id_ts id + epoch = UnixMilli t) /\
  (forall nodeId epoch g0 g w id g' w',
     0 <= nodeId ->
     Packed.NewGenerator nodeId epoch = (Some g0, None) ->
     Packed_reachable (timely epoch) g0 g ->
     timely epoch (clock w) ->
     Forall (fun t => Int64.in_range (UnixMilli t - epoch)) (clock w) ->
     Packed.Generate g w = Some ((id, None), g', w') ->
     exists used t,
       clock w = used ++ t :: clock w' /\ id_ts id + epoch = UnixMilli t).
Proof.
  split.
  - intros nodeId epoch now g0 g w id g' w' Hn N R T W G.
    apply Split_new_inv in N; [| assumption]. destruct N as (I0 & <- & _).
    apply (Split_reachable_inv nodeId) in R; [| assumption].
    destruct R as (I & E). rewrite <- E in *.
    pose proof (Split_call _ _ _ _ _ _ I T G) as (_ & _ & L & Y & _).
    apply layout_fields in Y. destruct Y as (-> & _).
    apply Split_loop_last in L. destruct L as (used & t & Ec & Et).
    exists used, t. split; [assumption |]. rewrite Et.
    rewrite Forall_forall in W.
    assert (In t (clock w)) by (rewrite Ec; apply in_or_app; right; now left).
    unfold relative, Int64.sub. rewrite wrap_small by auto. lia.
  - intros nodeId epoch g0 g w id g' w' Hn N R T W G.
    apply Packed_new_inv in N; [| assumption]. destruct N as (I0 & <- & _).
    apply (Packed_reachable_inv nodeId) in R; [| assumption].
    destruct R as (I & E). rewrite <- E in *.
    pose proof (Packed_call _ _ _ _ _ _ I T G) as (_ & _ & L & Y & _).
    apply layout_fields in Y. destruct Y as (-> & _).
    apply Packed_loop_last in L. destruct L as (used & t & Ec & Et).
    exists used, t. split; [assumption |]. rewrite Et.
    rewrite Forall_forall in W.
    assert (In t (clock w)) by (rewrite Ec; apply in_or_app; right; now left).
    unfold relative, Int64.sub. rewrite wrap_small by auto. lia.
Qed.

Lemma in_range_ticks (l : list Time) :
  forallb (fun t => (- 2 ^ 63 <=? UnixMilli t - TwitterEpoch)
                    && (UnixMilli t - TwitterEpoch <? 2 ^ 63)) l = true ->
  Forall (fun t => Int64.in_range (UnixMilli t - TwitterEpoch)) l.
Proof.
  rewrite forallb_forall, Forall_forall. intros H t I.
  specialize (H t I). apply andb_prop in H. destruct H as [A B].
  apply Z.leb_le in A. apply Z.ltb_lt in B. split; assumption.
Qed.

(** With timestamp 5 recorded, the clock read at 4 three times and then at
    5: the packed call returns the millisecond of its fourth reading. *)
Lemma timestamp_is_last_reading_witness :
  exists used t,
    [tick 4 100; tick 4 200; tick 4 300; tick 5 1000400]
      = used ++ t :: [] /\
    id_ts (pack 5 4096 1) + TwitterEpoch = UnixMilli t.
Proof.
  apply (proj2 timestamp_is_last_reading 1 TwitterEpoch (packed_at 0 0)
           (packed_at 5 0)
           (mkWorld [tick 4 100; tick 4 200; tick 4 300; tick 5 1000400] [])
           (pack 5 4096 1) (packed_at 5 1) (mkWorld [] [])).
  - lia.
  - reflexivity.
  - apply (Packed_reach_call _ _ (packed_at 0 0) (mkWorld [tick 5 0] [])
             (pack 5 4096 0, None) (packed_at 5 0) (mkWorld [] [])).
    + apply Packed_reach_new.
    + apply timely_ticks. reflexivity.
    + vm_compute; reflexivity.
  - apply timely_ticks. reflexivity.
  - apply in_range_ticks. reflexivity.
  - vm_compute; reflexivity.
Defined.

(** ** A clock that is not behind *)

Lemma Split_loop_steady g clk :
  steady (Split.tsepoch g) (Split.lts g) clk ->
  forall sl e g' w', Split.loop g clk sl <> Failed e g' w'.
Proof.
  induction clk as [| t clk IH]; intros S sl e g' w'; simpl; [discriminate |].
  inversion S as [| ? ? St S']; subst. rewrite !cas_same.
  destruct (Z.ltb_spec (relative (Split.tsepoch g) t) (Split.lts g)); [lia |].
  destruct (_ =? _); [| discriminate].
  destruct (_ =? _); [now apply IH | discriminate].
Qed.

Lemma Packed_loop_steady g n : forall clk,
  steady (Packed.tsepoch g) (Packed.lastTs g) clk ->
  forall sl e g' w', Packed.loop n g clk sl <> Failed e g' w'.
Proof.
  induction n as [| n IH]; intros clk S sl e g' w'; [discriminate |].
  destruct clk as [| t clk0]; [discriminate |].
  inversion S as [| ? ? St S']; subst. rewrite Packed_loop_round.
  destruct (Z.ltb_spec (relative (Packed.tsepoch g) t) (Packed.lastTs g));
    [lia |].
  cbn [clock slept].
  destruct (_ =? _); [| discriminate].
  destruct (_ =? _); [now apply IH | discriminate].
Qed.

(** X5: when no reading of the clock is behind the recorded timestamp,
    [Generate] returns no error and [MustGenerate] does not panic, in the
    two-word and in the packed version. *)
Theorem steady_clock_never_fails :
  (forall g w,
     steady (Split.tsepoch g) (Split.lts g) (clock w) ->
     (forall id err g' w',
        Split.Generate g w = Some ((id, err), g', w') -> err = None) /\
     (forall e g' w', Split.MustGenerate g w <> Some (Panicked e, g', w'))) /\
  (forall g w,
     steady (Packed.tsepoch g) (Packed.lastTs g) (clock w) ->
     (forall id err g' w',
        Packed.Generate g w = Some ((id, err), g', w') -> err = None) /\
     (forall e g' w', Packed.MustGenerate g w <> Some (Panicked e, g', w'))).
Proof.
  split; intros g w St.
  - pose proof (Split_loop_steady g (clock w) St (slept w)) as F.
    unfold Split.MustGenerate, Split.Generate.
    destruct (Split.loop _ _ _) as [ts sq g1 w1 | e1 g1 w1 |].
    + split; [now intros id err g' w' [= <- <- <- <-] | discriminate].
    + exfalso. exact (F e1 g1 w1 eq_refl).
    + split; discriminate.
  - pose proof (Packed_loop_steady g (S (length (clock w))) (clock w) St
                  (slept w)) as F.
    unfold Packed.MustGenerate, Packed.Generate.
    destruct (Packed.loop _ _ _ _) as [ts sq g1 w1 | e1 g1 w1 |].
    + split; [now intros id err g' w' [= <- <- <- <-] | discriminate].
    + exfalso. exact (F e1 g1 w1 eq_refl).
    + split; discriminate.
Qed.

Lemma steady_ticks (ts : Z) (l : list Time) :
  forallb (fun t => ts <=? relative TwitterEpoch t) l = true ->
  steady TwitterEpoch ts l.
Proof.
  unfold steady. rewrite forallb_forall, Forall_forall.
  intros H t I. apply Z.leb_le. exact (H t I).
Qed.

(** With timestamp 5 and sequence 4095 recorded and the clock at 5, 5 and
    6. *)
Lemma steady_clock_never_fails_witness :
  Packed.MustGenerate (packed_at 5 4095)
    (mkWorld [tick 5 0; tick 5 1000000; tick 6 2000000] [])
  <> Some (Panicked ErrGenerationClockRollback, packed_at 5 4095,
           mkWorld [] [Millisecond; Millisecond]).
Proof.
  apply (proj2 (proj2 steady_clock_never_fails (packed_at 5 4095)
                  (mkWorld [tick 5 0; tick 5 1000000; tick 6 2000000] [])
                  (steady_ticks 5 [tick 5 0; tick 5 1000000; tick 6 2000000]
                     eq_refl))).
Defined.

(** For a stuck clock the two-word loop sleeps and reads again. *)
Lemma Split_loop_stuck g stuck : forall t rest sl,
  (stuck <> [] -> Split.seq g = snowflakeSequenceMask) ->
  Forall (fun s => relative (Split.tsepoch g) s = Split.lts g) stuck ->
  Split.lts g < relative (Split.tsepoch g) t ->
  Split.loop g (stuck ++ t :: rest) sl
    = Minted (relative (Split.tsepoch g) t) 0
        (Split.set_seq (Split.set_lts g (relative (Split.tsepoch g) t)) 0)
        (mkWorld rest (repeat Millisecond (length stuck) ++ sl)).
Proof.
  induction stuck as [| s stuck IH]; intros t rest sl X F Lt.
  - cbn [app Split.loop length repeat]. rewrite !cas_same.
    destruct (Z.ltb_spec (relative (Split.tsepoch g) t) (Split.lts g));
      [lia |].
    destruct (Z.eqb_spec (relative (Split.tsepoch g) t) (Split.lts g));
      [lia | reflexivity].
  - inversion F as [| ? ? Es F']; subst.
    assert (M : Split.seq g = snowflakeSequenceMask)
      by (apply X; discriminate).
    cbn [app Split.loop]. rewrite Es, Z.ltb_irrefl, Z.eqb_refl, M, Z.eqb_refl.
    rewrite IH by auto. cbn [length repeat]. now rewrite repeat_app_cons.
Qed.

Lemma Packed_loop_stuck g stuck : forall n t rest sl,
  (length (stuck ++ t :: rest) < n)%nat ->
  (stuck <> [] -> Packed.lastSeq g = snowflakeSequenceMask) ->
  Forall (fun s => relative (Packed.tsepoch g) s = Packed.lastTs g) stuck ->
  Packed.lastTs g < relative (Packed.tsepoch g) t ->
  Packed.loop n g (stuck ++ t :: rest) sl
    = Minted (relative (Packed.tsepoch g) t) 0
        (Packed.set_state g
           (Z.lor (Int64.shl (relative (Packed.tsepoch g) t)
                     snowflakeSequenceBits) 0))
        (mkWorld rest (repeat Millisecond (length stuck) ++ sl)).
Proof.
  induction stuck as [| s stuck IH]; intros n t rest sl Hn X F Lt;
    (destruct n as [| n]; [simpl in Hn; lia |]).
  - cbn [app length repeat]. rewrite Packed_loop_round.
    destruct (Z.ltb_spec (relative (Packed.tsepoch g) t) (Packed.lastTs g));
      [lia |].
    destruct (Z.eqb_spec (relative (Packed.tsepoch g) t) (Packed.lastTs g));
      [lia | reflexivity].
  - inversion F as [| ? ? Es F']; subst.
    assert (M : Packed.lastSeq g = snowflakeSequenceMask)
      by (apply X; discriminate).
    cbn [app]. rewrite Packed_loop_round.
    rewrite Es, Z.ltb_irrefl, Z.eqb_refl, M, Z.eqb_refl. cbn [clock slept].
    rewrite IH by (simpl in Hn; auto; lia).
    cbn [length repeat]. now rewrite repeat_app_cons.
Qed.

(** X6: a call returns as soon as the clock reads a later millisecond
    than the recorded one.  With the sequence numbers of the recorded
    millisecond used up, it sleeps 1 ms after every reading that is still
    in that millisecond, and at the first later reading it returns that
    timestamp with sequence 0, having taken these readings and no more;
    with no reading stuck it returns on the first one.  In the two-word
    and in the packed version. *)
Theorem call_returns_when_clock_moves :
  (forall g stuck t rest sl,
     (stuck <> [] -> Split.seq g = snowflakeSequenceMask) ->
     Forall (fun s => relative (Split.tsepoch g) s = Split.lts g) stuck ->
     Split.lts g < relative (Split.tsepoch g) t ->
     Split.Generate g (mkWorld (stuck ++ t :: rest) sl)
       = Some ((pack (relative (Split.tsepoch g) t) (Split.shiftedNid g) 0,
                None),
               Split.set_seq
                 (Split.set_lts g (relative (Split.tsepoch g) t)) 0,
               mkWorld rest (repeat Millisecond (length stuck) ++ sl))) /\
  (forall g stuck t rest sl,
     (stuck <> [] -> Packed.lastSeq g = snowflakeSequenceMask) ->
     Forall (fun s => relative (Packed.tsepoch g) s = Packed.lastTs g)
       stuck ->
     Packed.lastTs g < relative (Packed.tsepoch g) t ->
     Packed.Generate g (mkWorld (stuck ++ t :: rest) sl)
       = Some ((pack (relative (Packed.tsepoch g) t) (Packed.shiftedNid g) 0,
                None),
               Packed.set_state g
                 (Z.lor (Int64.shl (relative (Packed.tsepoch g) t)
                           snowflakeSequenceBits) 0),
               mkWorld rest (repeat Millisecond (length stuck) ++ sl))).
Proof.
  split; intros g stuck t rest sl X F Lt.
  - unfold Split.Generate. cbn [clock slept].
    now rewrite Split_loop_stuck.
  - unfold Packed.Generate. cbn [clock slept].
    rewrite Packed_loop_stuck by (auto; lia). reflexivity.
Qed.

(** Timestamp 7 with sequence 4095 recorded, the clock at 7 twice and then
    at 9: two sleeps, then timestamp 9 with sequence 0; the reading after
    that is left. *)
Lemma call_returns_when_clock_moves_witness :
  Packed.Generate (packed_at 7 4095)
    (mkWorld ([tick 7 0; tick 7 1000000] ++ tick 9 2000000 :: [tick 9 2000100])
       [])
  = Some ((pack 9 4096 0, None), packed_at 9 0,
          mkWorld [tick 9 2000100] [Millisecond; Millisecond]).
Proof.
  apply (proj2 call_returns_when_clock_moves (packed_at 7 4095)
           [tick 7 0; tick 7 1000000] (tick 9 2000000) [tick 9 2000100] []).
  - intros _. reflexivity.
  - repeat constructor.
  - vm_compute; reflexivity.
Defined.

(** ** Identifiers in the order they are made *)

(** Between two points of a run of calls the recorded timestamp and
    sequence number do not go back. *)
Lemma Split_reachable_key nodeId g1 g2 :
  Split_inv nodeId g1 ->
  Split_reachable (timely (Split.tsepoch g1)) g1 g2 ->
  Split.lts g1 * 4096 + Split.seq g1 <= Split.lts g2 * 4096 + Split.seq g2.
Proof.
  intros I1 R.
  enough (K : Split.lts g1 * 4096 + Split.seq g1
                <= Split.lts g2 * 4096 + Split.seq g2 /\
              Split_inv nodeId g2 /\ Split.tsepoch g2 = Split.tsepoch g1)
    by tauto.
  induction R as [| g w r g' w' R (K & I & E) T G];
    [split; [lia | auto] |].
  pose proof G as G'. apply Split_Generate_cases in G'.
  destruct G' as [(ts & sq & _ & ->) | [-> _]]; [| auto].
  rewrite <- E in T.
  pose proof (Split_call _ _ _ _ _ _ I T G) as (I' & E' & _ & _ & C).
  destruct I as (_ & _ & _ & Hq). rewrite mask_value in Hq.
  split; [lia | split; [assumption | congruence]].
Qed.

Lemma Packed_reachable_key nodeId g1 g2 :
  Packed_inv nodeId g1 ->
  Packed_reachable (timely (Packed.tsepoch g1)) g1 g2 ->
  Packed.state g1 <= Packed.state g2.
Proof.
  intros I1 R.
  enough (K : Packed.state g1 <= Packed.state g2 /\
              Packed_inv nodeId g2 /\ Packed.tsepoch g2 = Packed.tsepoch g1)
    by tauto.
  induction R as [| g w r g' w' R (K & I & E) T G];
    [split; [lia | auto] |].
  pose proof G as G'. apply Packed_Generate_cases in G'.
  destruct G' as [(ts & sq & _ & ->) | [-> _]]; [| auto].
  rewrite <- E in T.
  pose proof (Packed_call _ _ _ _ _ _ I T G) as (I' & E' & _ & _ & C).
  pose proof (Packed_state_split g) as (Sg & Bg).
  pose proof (Packed_state_split g') as (Sg' & Bg').
  split; [lia | split; [assumption | congruence]].
Qed.

(** X7: the identifiers a generator returns to calls made one after the
    other grow: an identifier is greater, as an integer, than every
    identifier returned before it, whatever calls, failed ones too, lie
    between the two; for a node id that is not negative and readings less
    than [2 ^ 41] ms after the epoch, in both versions. *)
Theorem identifiers_increase :
  (forall nodeId epoch now g0 g w1 id1 g1 w1' g2 w2 id2 g3 w2',
     0 <= nodeId ->
     Split.NewGenerator nodeId epoch now = (Some g0, None) ->
     Split_reachable (timely epoch) g0 g ->
     timely epoch (clock w1) ->
     Split.Generate g w1 = Some ((id1, None), g1, w1') ->
     Split_reachable (timely epoch) g1 g2 ->
     timely epoch (clock w2) ->
     Split.Generate g2 w2 = Some ((id2, None), g3, w2') ->
     id1 < id2) /\
  (forall nodeId epoch g0 g w1 id1 g1 w1' g2 w2 id2 g3 w2',
     0 <= nodeId ->
     Packed.NewGenerator nodeId epoch = (Some g0, None) ->
     Packed_reachable (timely epoch) g0 g ->
     timely epoch (clock w1) ->
     Packed.Generate g w1 = Some ((id1, None), g1, w1') ->
     Packed_reachable (timely epoch) g1 g2 ->
     timely epoch (clock w2) ->
     Packed.Generate g2 w2 = Some ((id2, None), g3, w2') ->
     id1 < id2).
Proof.
  split.
  - intros nodeId epoch now g0 g w1 id1 g1 w1' g2 w2 id2 g3 w2'
      Hn N R T1 G1 R2 T2 G2.
    apply Split_new_inv in N; [| assumption]. destruct N as (I0 & <- & _).
    apply (Split_reachable_inv nodeId) in R; [| assumption].
    destruct R as (I & E). rewrite <- E in *.
    pose proof (Split_call _ _ _ _ _ _ I T1 G1) as (I1 & E1 & _ & Y1 & _).
    rewrite <- E1 in *.
    pose proof (Split_reachable_key _ _ _ I1 R2) as K.
    apply (Split_reachable_inv nodeId) in R2; [| assumption].
    destruct R2 as (I2 & E2). rewrite <- E2 in T2.
    pose proof (Split_call _ _ _ _ _ _ I2 T2 G2) as (I3 & _ & _ & Y2 & C).
    apply layout_sum in Y1, Y2.
    destruct I1 as (_ & _ & _ & Q1), I2 as (_ & _ & _ & Q2),
             I3 as (_ & _ & _ & Q3).
    rewrite mask_value in *. lia.
  - intros nodeId epoch g0 g w1 id1 g1 w1' g2 w2 id2 g3 w2'
      Hn N R T1 G1 R2 T2 G2.
    apply Packed_new_inv in N; [| assumption]. destruct N as (I0 & <- & _).
    apply (Packed_reachable_inv nodeId) in R; [| assumption].
    destruct R as (I & E). rewrite <- E in *.
    pose proof (Packed_call _ _ _ _ _ _ I T1 G1) as (I1 & E1 & _ & Y1 & _).
    rewrite <- E1 in *.
    pose proof (Packed_reachable_key _ _ _ I1 R2) as K.
    apply (Packed_reachable_inv nodeId) in R2; [| assumption].
    destruct R2 as (I2 & E2). rewrite <- E2 in T2.
    pose proof (Packed_call _ _ _ _ _ _ I2 T2 G2) as (I3 & _ & _ & Y2 & C).
    apply layout_sum in Y1, Y2.
    pose proof (Packed_state_split g1) as (S1 & B1).
    pose proof (Packed_state_split g2) as (S2 & B2).
    pose proof (Packed_state_split g3) as (S3 & B3).
    lia.
Qed.

(** A call in millisecond 10, a failed call with the clock at 9, and a
    second call in millisecond 10 of a packed generator. *)
Lemma identifiers_increase_witness : pack 10 4096 0 < pack 10 4096 1.
Proof.
  apply (proj2 identifiers_increase 1 TwitterEpoch (packed_at 0 0)
           (packed_at 0 0) (mkWorld [tick 10 0] []) (pack 10 4096 0)
           (packed_at 10 0) (mkWorld [] [])
           (packed_at 10 0) (mkWorld [tick 10 1000] []) (pack 10 4096 1)
           (packed_at 10 1) (mkWorld [] [])).
  - lia.
  - reflexivity.
  - apply Packed_reach_new.
  - apply timely_ticks. reflexivity.
  - vm_compute; reflexivity.
  - apply (Packed_reach_call _ _ (packed_at 10 0)
             (mkWorld [tick 9 0; tick 9 100; tick 9 15000100] [])
             (0, Some ErrGenerationClockRollback) (packed_at 10 0)
             (mkWorld [] [])).
    + apply Packed_reach_new.
    + apply timely_ticks. reflexivity.
    + vm_compute; reflexivity.
  - apply timely_ticks. reflexivity.
  - vm_compute; reflexivity.
Defined.

(** X9: under any number of concurrent callers of the packed generator
    the identifiers grow in the order of the winning compare-and-swaps:
    each is greater, as an integer, than the one before it; for a node id
    that is not negative and readings less than [2 ^ 41] ms after the
    epoch. *)
Theorem packed_identifiers_increase nodeId epoch g0 sched :
  0 <= nodeId ->
  Packed.NewGenerator nodeId epoch = (Some g0, None) ->
  Forall (fun s => relative epoch (snd s) < 2 ^ 41) sched ->
  chain Z.lt
    (minted_ids (PackedMachine.history
                   (PackedMachine.run (PackedMachine.init g0) sched))).
Proof.
  intros Hn N F.
  pose proof (machine_run nodeId epoch sched _
                (machine_init _ _ _ Hn N) F) as (_ & _ & _ & Ch & _).
  unfold minted_ids. apply chain_rev, chain_map.
  eapply chain_weaken; [| exact Ch]. intros a b [_ Lt]. exact Lt.
Qed.

Lemma timely_schedule (sched : list (nat * Time)) :
  forallb (fun s => relative TwitterEpoch (snd s) <? 2 ^ 41) sched = true ->
  Forall (fun s => relative TwitterEpoch (snd s) < 2 ^ 41) sched.
Proof.
  rewrite forallb_forall, Forall_forall. intros H s I.
  apply Z.ltb_lt. exact (H s I).
Qed.

(** Two callers racing in millisecond 10: they get sequence 0 and 1. *)
Lemma packed_identifiers_increase_witness :
  chain Z.lt
    (minted_ids (PackedMachine.history
                   (PackedMachine.run (PackedMachine.init (packed_at 0 0))
                      schedule_packed))).
Proof.
  apply (packed_identifiers_increase 1 TwitterEpoch (packed_at 0 0)
           schedule_packed).
  - lia.
  - reflexivity.
  - apply timely_schedule. reflexivity.
Defined.

Lemma packed_callers_ordered_and_distinct_witness :
  minted_ids (PackedMachine.history
                (PackedMachine.run (PackedMachine.init (packed_at 0 0))
                   schedule_packed))
    = [pack 10 4096 0; pack 10 4096 1] /\
  NoDup (minted_ids (PackedMachine.history
                       (PackedMachine.run (PackedMachine.init (packed_at 0 0))
                          schedule_packed))).
Proof.
  split; [vm_compute; reflexivity |].
  apply (packed_callers_ordered_and_distinct 1 TwitterEpoch (packed_at 0 0)
           schedule_packed).
  - lia.
  - reflexivity.
  - apply timely_schedule. reflexivity.
Defined.

(** The schedule on which two callers of the two-word generator get the
    same identifier: its sequence numbers are 0, 1 and 1. *)
Lemma two_word_sequence_bounded_witness :
  Forall (fun m => 0 <= snd (fst m) <= snowflakeSequenceMask)
    (mints (SplitMachine.history
              (SplitMachine.run (SplitMachine.init (split_at 0 0))
                 schedule_collide))).
Proof.
  apply (two_word_sequence_bounded (split_at 0 0) schedule_collide).
  vm_compute. split; congruence.
Defined.

(** The greatest node id [NewGenerator] accepts. *)
Lemma NewGenerator_spec_witness :
  Packed.NewGenerator 1023 TwitterEpoch
    = (Some {| Packed.tsepoch := TwitterEpoch;
               Packed.shiftedNid := 1023 * 4096;
               Packed.state := 0 |}, None) /\
  Split.NewGenerator 1023 TwitterEpoch (at_ms TwitterEpoch 0)
    = (Some {| Split.tsepoch := TwitterEpoch;
               Split.shiftedNid := 1023 * 4096;
               Split.st := at_ms TwitterEpoch 0;
               Split.lts := 0; Split.seq := 0 |}, None).
Proof.
  apply (proj2 (proj2 (NewGenerator_spec 1023 TwitterEpoch
                         (at_ms TwitterEpoch 0)))).
  lia.
Defined.

(** ** The recorded timestamp under concurrent callers *)

Lemma split_time_step g0 c tid now :
  split_time_inv g0 c ->
  Split.lts (SplitMachine.gen c)
    <= Split.lts (SplitMachine.gen (SplitMachine.step c tid now)) /\
  split_time_inv g0 (SplitMachine.step c tid now).
Proof.
  intros (H0 & Lo & Ev). pose proof (Lo tid) as Lt.
  assert (Keep : forall g p h,
    Split.lts (SplitMachine.gen c) <= Split.lts g ->
    match p with
    | SplitMachine.AtLoadSeq _ l => Split.lts g0 <= l <= Split.lts g
    | SplitMachine.AtCasSeq r _ => Split.lts g0 <= r <= Split.lts g
    | SplitMachine.AtCasLts r l => Split.lts g0 <= l <= Split.lts g /\ l < r
    | _ => True
    end ->
    (forall m, In m (mints h) ->
               In m (mints (SplitMachine.history c)) \/
               Split.lts g0 <= fst (fst m) <= Split.lts g) ->
    Split.lts (SplitMachine.gen c) <= Split.lts g /\
    split_time_inv g0
      (SplitMachine.mkConfig g (upd (SplitMachine.pcs c) tid p) h)).
  { intros g p h Hg Hp Hh. split; [exact Hg |].
    unfold split_time_inv.
    cbn [SplitMachine.gen SplitMachine.pcs SplitMachine.history].
    split; [lia | split].
    - intros t. unfold upd. destruct (Nat.eqb t tid); [exact Hp |].
      specialize (Lo t).
      destruct (SplitMachine.pcs c t); try exact I; lia.
    - rewrite Forall_forall in *. intros m Im.
      destruct (Hh m Im) as [Old | New]; [| exact New].
      specialize (Ev m Old). lia. }
  assert (Same : forall m,
    In m (mints (SplitMachine.history c)) ->
    In m (mints (SplitMachine.history c)) \/
    Split.lts g0 <= fst (fst m) <= Split.lts (SplitMachine.gen c))
    by (intros; now left).
  unfold SplitMachine.step.
  destruct (SplitMachine.pcs c tid) as [| r | r l | | r sq | r l |] eqn:P.
  - apply Keep; auto; lia.
  - apply Keep; auto; lia.
  - destruct (Z.ltb_spec r l); [apply Keep; auto; lia |].
    destruct (Z.eqb_spec r l).
    + destruct (_ =? _); apply Keep; auto; lia.
    + apply Keep; auto; lia.
  - apply Keep; auto; lia.
  - unfold CompareAndSwap. destruct (_ =? _); [| apply Keep; auto; lia].
    apply Keep; cbn [Split.lts Split.set_seq]; auto; [lia |].
    intros m [<- | Im]; [right; cbn; lia | now left].
  - unfold CompareAndSwap.
    destruct (Z.eqb_spec (Split.lts (SplitMachine.gen c)) l) as [E | N];
      [| apply Keep; auto; lia].
    apply Keep; cbn [Split.lts Split.set_lts]; auto; [lia |].
    intros m [<- | Im]; [right; cbn; lia | now left].
  - apply Keep; cbn [Split.lts Split.set_seq]; auto; lia.
Qed.

Lemma split_time_run g0 sched : forall c,
  split_time_inv g0 c ->
  Split.lts (SplitMachine.gen c)
    <= Split.lts (SplitMachine.gen (SplitMachine.run c sched)) /\
  split_time_inv g0 (SplitMachine.run c sched).
Proof.
  induction sched as [| [tid now] sched IH]; intros c I;
    [split; [cbn; lia | exact I] |].
  destruct (split_time_step g0 c tid now I) as (L & I').
  destruct (IH _ I') as (L' & I''). split; [| exact I''].
  eapply Z.le_trans; [exact L | exact L'].
Qed.

(** X11: under any interleaving of callers of the two-word generator and
    whatever the clock reads, the recorded timestamp never goes back, and
    every timestamp returned lies between the timestamp recorded at the
    start and the one recorded now; so a new generator returns no
    timestamp below 0. *)
Theorem two_word_timestamp_holds g0 s1 s2 :
  Split.lts g0
    <= Split.lts (SplitMachine.gen (SplitMachine.run (SplitMachine.init g0) s1))
    <= Split.lts (SplitMachine.gen
                    (SplitMachine.run (SplitMachine.init g0) (s1 ++ s2))) /\
  Forall (fun m =>
            Split.lts g0 <= fst (fst m)
              <= Split.lts (SplitMachine.gen
                              (SplitMachine.run (SplitMachine.init g0) s1)))
    (mints (SplitMachine.history
              (SplitMachine.run (SplitMachine.init g0) s1))).
Proof.
  assert (I0 : split_time_inv g0 (SplitMachine.init g0)).
  { split; [cbn; lia | split; [intros tid; exact I | constructor]]. }
  destruct (split_time_run g0 s1 _ I0) as (L1 & I1).
  destruct (split_time_run g0 s2 _ I1) as (L2 & _).
  unfold SplitMachine.run in *. rewrite fold_left_app.
  cbn [SplitMachine.init SplitMachine.gen] in L1.
  split; [lia |]. exact (proj2 (proj2 I1)).
Qed.

(** ** How long a rollback is waited for *)

Lemma paced_rounds e dl p rounds : forall m,
  paced m rounds = true ->
  behind e dl p rounds = true ->
  rounds <> [] ->
  m + (Z.of_nat (length rounds) - 1) * Millisecond < monoNano dl.
Proof.
  induction rounds as [| [c t] rounds IH]; intros m P B N; [contradiction |].
  cbn [paced behind forallb fst snd] in P, B.
  apply andb_prop in P. destruct P as [P Pr].
  apply andb_prop in P. destruct P as [Pm Pc].
  apply andb_prop in B. destruct B as [B Br].
  apply andb_prop in B. destruct B as [Bc _].
  apply Z.leb_le in Pm, Pc. unfold Before in Bc. apply Z.ltb_lt in Bc.
  destruct rounds as [| ct rounds'].
  - cbn [length]. lia.
  - specialize (IH _ Pr Br ltac:(discriminate)).
    cbn [length] in *. unfold Millisecond in *. lia.
Qed.

(** X12: the wait for a clock that is behind ends within the tolerance:
    when the monotonic clock does not go back and every sleep of 1 ms
    takes at least 1 ms on it, the packed [Generate] polls at most 15
    times before the deadline is past, so a call that gives up returns the
    rollback error after at most 15 sleeps. *)
Theorem rollback_wait_is_bounded :
  forall g t d rounds c rest sl,
    relative (Packed.tsepoch g) t < Packed.lastTs g ->
    behind (Packed.tsepoch g) (Add d (15 * Millisecond)) (Packed.lastTs g)
      rounds = true ->
    paced (monoNano d) rounds = true ->
    Before c (Add d (15 * Millisecond)) = false ->
    (length rounds <= 15)%nat /\
    Packed.Generate g (mkWorld (t :: d :: flat_rounds rounds ++ c :: rest) sl)
      = Some ((0, Some ErrGenerationClockRollback), g,
              mkWorld rest (repeat Millisecond (length rounds) ++ sl)).
Proof.
  intros g t d rounds c rest sl L B P C. split.
  - destruct rounds as [| ct rounds']; [cbn; lia |].
    pose proof (paced_rounds _ _ _ _ _ P B ltac:(discriminate)) as K.
    cbn [Add monoNano] in K. unfold Millisecond in K. lia.
  - unfold Packed.Generate. cbn [clock slept]. simpl length.
    rewrite Packed_loop_round.
    destruct (poll_behind _ _ _ _ _ (c :: rest) sl L B) as (r' & Hr' & E).
    apply Z.ltb_lt in L. rewrite L. unfold Packed.await. rewrite E.
    cbn [Packed.poll]. rewrite C.
    apply Z.ltb_lt in Hr'. now rewrite Hr'.
Qed.

(** With timestamp 5 recorded and the clock stuck at 4: fifteen polls
    before the deadline, the sixteenth deadline check is past it. *)
Lemma rollback_wait_is_bounded_witness :
  (length fifteen_rounds <= 15)%nat /\
  Packed.Generate (packed_at 5 0)
    (mkWorld (tick 4 0 :: tick 4 100
              :: flat_rounds fifteen_rounds ++ tick 4 15001600 :: []) [])
    = Some ((0, Some ErrGenerationClockRollback), packed_at 5 0,
            mkWorld [] (repeat Millisecond (length fifteen_rounds) ++ [])).
Proof.
  apply (rollback_wait_is_bounded (packed_at 5 0) (tick 4 0) (tick 4 100)
           fifteen_rounds (tick 4 15001600) [] []);
    vm_compute; reflexivity.
Defined.

(** ** The helper of the tests *)

(** X13: [absDiff a b] of the tests is the distance of [a] and [b]
    wrapped to 64 bits, whichever is greater; it is the distance itself,
    zero exactly for equal arguments, whenever the distance is below
    [2 ^ 63]. *)
Theorem absDiff_spec (a b : Z) :
  absDiff a b = absDiff b a /\
  absDiff a b = Int64.wrap (Z.abs (a - b)) /\
  (Z.abs (a - b) < 2 ^ 63 ->
   absDiff a b = Z.abs (a - b) /\ (absDiff a b = 0 <-> a = b)).
Proof.
  assert (W : absDiff a b = Int64.wrap (Z.abs (a - b))).
  { unfold absDiff, Int64.sub. rewrite Z.gtb_ltb.
    destruct (Z.ltb_spec b a); f_equal; lia. }
  split; [| split; [exact W |]].
  - unfold absDiff, Int64.sub. rewrite !Z.gtb_ltb.
    destruct (Z.ltb_spec b a), (Z.ltb_spec a b); try reflexivity; try lia.
    f_equal; lia.
  - intros H. rewrite W, wrap_small by (unfold Int64.in_range; lia).
    split; [reflexivity | lia].
Qed.

(** The check of the timestamp test: a reading 3 ms after the
    identifier's millisecond. *)
Lemma absDiff_spec_witness :
  absDiff (TwitterEpoch + 13) (TwitterEpoch + 10) = 3 /\
  (absDiff (TwitterEpoch + 13) (TwitterEpoch + 10) = 0
   <-> TwitterEpoch + 13 = TwitterEpoch + 10).
Proof.
  pose proof (proj2 (proj2 (absDiff_spec (TwitterEpoch + 13)
                              (TwitterEpoch + 10)))
                ltac:(vm_compute; reflexivity)) as [A B].
  split; [exact A | exact B].
Defined.

(** * The sequence numbers of a millisecond used up *)

(** Calls made one after the other lead to reachable generators. *)
Lemma Split_calls_reachable ok t n : forall g0 g g',
  ok [t] ->
  Split_reachable ok g0 g ->
  Split_calls n g t = Some g' ->
  Split_reachable ok g0 g'.
Proof.
  induction n as [| n IH]; intros g0 g g' Hok R C; simpl in C.
  - now injection C as <-.
  - destruct (Split.Generate g (mkWorld [t] []))
      as [[[[id [e |]] g1] w1] |] eqn:G; try discriminate.
    apply (IH g0 g1 g' Hok); [| assumption].
    exact (Split_reach_call ok g0 g (mkWorld [t] []) _ g1 w1 R Hok G).
Qed.

(** C6, as stated, fails past the 41 bits of the timestamp.  4096 calls in
    the last millisecond that fits, [2 ^ 41 - 1], use up its sequence
    numbers; the next call sleeps and, with the clock at [2 ^ 41], returns
    an identifier whose timestamp field is [- 2 ^ 41]: not a larger
    timestamp, and a smaller identifier than the one before.  In both
    versions. *)
Lemma exhaustion_past_41_bits :
  (Split.NewGenerator 1 TwitterEpoch (at_ms TwitterEpoch 0)
     = (Some (split_at 0 0), None) /\
   Split_calls 4096 (split_at 0 0) (tick (2 ^ 41 - 1) 0)
     = Some (split_at (2 ^ 41 - 1) 4095) /\
   Split.Generate (split_at (2 ^ 41 - 1) 4095)
       (mkWorld [tick (2 ^ 41 - 1) 0; tick (2 ^ 41) 1000000] [])
     = Some ((- 2 ^ 63 + 4096, None), split_at (2 ^ 41) 0,
             mkWorld [] [Millisecond])) /\
  (Packed.NewGenerator 1 TwitterEpoch = (Some (packed_at 0 0), None) /\
   Packed_calls 4096 (packed_at 0 0) (tick (2 ^ 41 - 1) 0)
     = Some (packed_at (2 ^ 41 - 1) 4095) /\
   Packed.Generate (packed_at (2 ^ 41 - 1) 4095)
       (mkWorld [tick (2 ^ 41 - 1) 0; tick (2 ^ 41) 1000000] [])
     = Some ((- 2 ^ 63 + 4096, None), packed_at (2 ^ 41) 0,
             mkWorld [] [Millisecond])) /\
  id_ts (- 2 ^ 63 + 4096) = - 2 ^ 41 /\
  id_ts (- 2 ^ 63 + 4096) < 2 ^ 41 - 1 /\
  - 2 ^ 63 + 4096 < pack (2 ^ 41 - 1) 4096 4095.
Proof.
  split; [| split; [| split; [| split]]].
  - split; [reflexivity | split; vm_compute; reflexivity].
  - split; [reflexivity | split; vm_compute; reflexivity].
  - vm_compute; reflexivity.
  - vm_compute; reflexivity.
  - vm_compute; reflexivity.
Qed.

(** C6, amended: with the sequence number at 4095 and the clock still in
    the recorded millisecond, a call that no other call overlaps sleeps
    one millisecond and starts over with the generator unchanged; it does
    so once for every reading still in that millisecond, and at the first
    reading in a later millisecond it returns that timestamp with the
    sequence number 0.  A call that finds 4095 and returns an identifier
    has packed a timestamp above the recorded one and the sequence number
    0; on a generator made for a node id that is not negative, as long as
    the clock stays below [2 ^ 41] ms after the epoch, the timestamp field
    of that identifier is above the recorded timestamp and its sequence
    field is 0.  No identifier of a generator made by [NewGenerator] has a
    sequence number above 4095.  In the two-word and in the packed
    version. *)
Theorem exhaustion_waits :
  ((forall g t clk sl,
      Split.seq g = snowflakeSequenceMask ->
      relative (Split.tsepoch g) t = Split.lts g ->
      Split.Generate g (mkWorld (t :: clk) sl)
        = Split.Generate g (mkWorld clk (Millisecond :: sl))) /\
   (forall g s stuck t rest sl,
      Split.seq g = snowflakeSequenceMask ->
      Forall (fun r => relative (Split.tsepoch g) r = Split.lts g)
        (s :: stuck) ->
      Split.lts g < relative (Split.tsepoch g) t ->
      Split.Generate g (mkWorld ((s :: stuck) ++ t :: rest) sl)
        = Some ((pack (relative (Split.tsepoch g) t) (Split.shiftedNid g) 0,
                 None),
                Split.set_seq
                  (Split.set_lts g (relative (Split.tsepoch g) t)) 0,
                mkWorld rest
                  (repeat Millisecond (length (s :: stuck)) ++ sl))) /\
   (forall g w id g' w',
      Split.seq g = snowflakeSequenceMask ->
      Split.Generate g w = Some ((id, None), g', w') ->
      exists ts,
        Split.loop g (clock w) (slept w) = Minted ts 0 g' w' /\
        id = pack ts (Split.shiftedNid g) 0 /\ Split.lts g < ts) /\
   (forall nodeId epoch now g0 g w id g' w',
      0 <= nodeId ->
      Split.NewGenerator nodeId epoch now = (Some g0, None) ->
      Split_reachable (timely epoch) g0 g ->
      timely epoch (clock w) ->
      Split.seq g = snowflakeSequenceMask ->
      Split.Generate g w = Some ((id, None), g', w') ->
      Split.lts g < id_ts id /\ id_seq id = 0) /\
   (forall nodeId epoch now g0 g w id g' w',
      Split.NewGenerator nodeId epoch now = (Some g0, None) ->
      Split_reachable (fun _ => True) g0 g ->
      Split.Generate g w = Some ((id, None), g', w') ->
      exists ts sq,
        Split.loop g (clock w) (slept w) = Minted ts sq g' w' /\
        0 <= sq <= snowflakeSequenceMask /\ id_seq id = sq)) /\
  ((forall g t clk sl,
      Packed.lastSeq g = snowflakeSequenceMask ->
      relative (Packed.tsepoch g) t = Packed.lastTs g ->
      Packed.Generate g (mkWorld (t :: clk) sl)
        = Packed.Generate g (mkWorld clk (Millisecond :: sl))) /\
   (forall g s stuck t rest sl,
      Packed.lastSeq g = snowflakeSequenceMask ->
      Forall (fun r => relative (Packed.tsepoch g) r = Packed.lastTs g)
        (s :: stuck) ->
      Packed.lastTs g < relative (Packed.tsepoch g) t ->
      Packed.Generate g (mkWorld ((s :: stuck) ++ t :: rest) sl)
        = Some ((pack (relative (Packed.tsepoch g) t) (Packed.shiftedNid g) 0,
                 None),
                Packed.set_state g
                  (Z.lor (Int64.shl (relative (Packed.tsepoch g) t)
                            snowflakeSequenceBits) 0),
                mkWorld rest
                  (repeat Millisecond (length (s :: stuck)) ++ sl))) /\
   (forall g w id g' w',
      Packed.lastSeq g = snowflakeSequenceMask ->
      Packed.Generate g w = Some ((id, None), g', w') ->
      exists ts,
        Packed.loop (S (length (clock w))) g (clock w) (slept w)
          = Minted ts 0 g' w' /\
        id = pack ts (Packed.shiftedNid g) 0 /\ Packed.lastTs g < ts) /\
   (forall nodeId epoch g0 g w id g' w',
      0 <= nodeId ->
      Packed.NewGenerator nodeId epoch = (Some g0, None) ->
      Packed_reachable (timely epoch) g0 g ->
      timely epoch (clock w) ->
      Packed.lastSeq g = snowflakeSequenceMask ->
      Packed.Generate g w = Some ((id, None), g', w') ->
      Packed.lastTs g < id_ts id /\ id_seq id = 0) /\
   (forall nodeId epoch g0 g w id g' w',
      Packed.NewGenerator nodeId epoch = (Some g0, None) ->
      Packed_reachable (fun _ => True) g0 g ->
      Packed.Generate g w = Some ((id, None), g', w') ->
      exists ts sq,
        Packed.loop (S (length (clock w))) g (clock w) (slept w)
          = Minted ts sq g' w' /\
        0 <= sq <= snowflakeSequenceMask /\ id_seq id = sq)).
Proof.
  split; (split; [| split; [| split; [| split]]]).
  - intros g t clk sl M E. unfold Split.Generate. cbn [clock slept Split.loop].
    now rewrite E, Z.ltb_irrefl, Z.eqb_refl, M, Z.eqb_refl.
  - intros g s stuck t rest sl M F Lt.
    unfold Split.Generate. cbn [clock slept].
    now rewrite Split_loop_stuck.
  - intros g w id g' w' M G.
    apply Split_Generate_ok in G. destruct G as (ts & sq & L & ->).
    pose proof (Split_loop_minted _ _ _ _ _ _ _ L) as (_ & _ & C).
    destruct C as [(_ & _ & N) | (Lt & ->)]; [contradiction |]. eauto.
  - intros nodeId epoch now g0 g w id g' w' Hn N R T M G.
    apply Split_new_inv in N; [| assumption]. destruct N as (I0 & <- & _).
    apply (Split_reachable_inv nodeId) in R; [| assumption].
    destruct R as (I & E). rewrite <- E in T.
    pose proof (Split_call _ _ _ _ _ _ I T G) as (I' & _ & _ & Y & C).
    apply layout_fields in Y. destruct Y as (-> & _ & -> & _).
    destruct I' as (_ & _ & _ & Q'). rewrite mask_value in *. lia.
  - intros nodeId epoch now g0 g w id g' w' N R G.
    unfold Split.NewGenerator in N.
    destruct (_ >=? _); [discriminate |]. injection N as <-.
    apply (Split_reachable_seq _ _ g) in R;
      [| simpl; rewrite mask_value; lia].
    destruct R as (Hs & Hn & _). simpl in Hn.
    apply Split_Generate_ok in G. destruct G as (ts & sq & L & ->).
    exists ts, sq. split; [assumption |].
    apply Split_loop_minted in L. destruct L as (_ & _ & C).
    assert (Hsq : 0 <= sq <= snowflakeSequenceMask).
    { rewrite mask_value in *.
      destruct C as [(_ & -> & N) | (_ & ->)]; [| lia].
      unfold Int64.add. rewrite wrap_small by (unfold Int64.in_range; lia).
      lia. }
    split; [assumption |]. rewrite Hn. now apply id_seq_pack.
  - intros g t clk sl M E. unfold Packed.Generate. cbn [clock slept length].
    rewrite Packed_loop_round.
    now rewrite E, Z.ltb_irrefl, Z.eqb_refl, M, Z.eqb_refl.
  - intros g s stuck t rest sl M F Lt.
    unfold Packed.Generate. cbn [clock slept].
    rewrite Packed_loop_stuck by (auto; lia). reflexivity.
  - intros g w id g' w' M G.
    apply Packed_Generate_ok in G. destruct G as (ts & sq & L & ->).
    pose proof (Packed_loop_minted _ _ _ _ _ _ _ _ L) as (_ & C).
    destruct C as [(_ & _ & N) | (Lt & -> & _)]; [contradiction |]. eauto.
  - intros nodeId epoch g0 g w id g' w' Hn N R T M G.
    apply Packed_new_inv in N; [| assumption]. destruct N as (I0 & <- & _).
    apply (Packed_reachable_inv nodeId) in R; [| assumption].
    destruct R as (I & E). rewrite <- E in T.
    pose proof (Packed_call _ _ _ _ _ _ I T G) as (I' & _ & _ & Y & C).
    apply layout_fields in Y. destruct Y as (-> & _ & -> & _).
    pose proof (Packed_inv_fields _ _ I') as (_ & Q').
    rewrite mask_value in *. lia.
  - intros nodeId epoch g0 g w id g' w' N R G.
    unfold Packed.NewGenerator in N.
    destruct (_ >=? _); [discriminate |]. injection N as <-.
    apply Packed_reachable_config in R. destruct R as (Hn & _). simpl in Hn.
    apply Packed_Generate_ok in G. destruct G as (ts & sq & L & ->).
    exists ts, sq. split; [assumption |].
    apply Packed_loop_minted in L. destruct L as (_ & C).
    assert (Hsq : 0 <= sq <= snowflakeSequenceMask).
    { pose proof (lastSeq_range g) as B. rewrite mask_value in *.
      destruct C as [(_ & -> & N) | (_ & -> & _)]; [| lia].
      unfold Int64.add. rewrite wrap_small by (unfold Int64.in_range; lia).
      lia. }
    split; [assumption |]. rewrite Hn. now apply id_seq_pack.
Qed.

(** After 4096 calls in millisecond 7, with the clock at 7 twice and then
    at 8: both versions sleep twice and return timestamp 8 with sequence
    0, an identifier whose timestamp field is above 7. *)
Lemma exhaustion_waits_witness :
  (Split.Generate (split_at 7 4095)
       (mkWorld ([tick 7 0; tick 7 1000000] ++ tick 8 2000000 :: []) [])
     = Some ((pack 8 4096 0, None), split_at 8 0,
             mkWorld [] [Millisecond; Millisecond]) /\
   Packed.Generate (packed_at 7 4095)
       (mkWorld ([tick 7 0; tick 7 1000000] ++ tick 8 2000000 :: []) [])
     = Some ((pack 8 4096 0, None), packed_at 8 0,
             mkWorld [] [Millisecond; Millisecond])) /\
  (7 < id_ts (pack 8 4096 0) /\ id_seq (pack 8 4096 0) = 0).
Proof.
  split; [split |].
  - apply (proj1 (proj2 (proj1 exhaustion_waits))
             (split_at 7 4095) (tick 7 0) [tick 7 1000000] (tick 8 2000000)
             [] []).
    + reflexivity.
    + repeat constructor.
    + vm_compute; reflexivity.
  - apply (proj1 (proj2 (proj2 exhaustion_waits))
             (packed_at 7 4095) (tick 7 0) [tick 7 1000000] (tick 8 2000000)
             [] []).
    + reflexivity.
    + repeat constructor.
    + vm_compute; reflexivity.
  - apply (proj1 (proj2 (proj2 (proj2 (proj1 exhaustion_waits))))
             1 TwitterEpoch (at_ms TwitterEpoch 0) (split_at 0 0)
             (split_at 7 4095)
             (mkWorld [tick 7 0; tick 7 1000000; tick 8 2000000] [])
             (pack 8 4096 0) (split_at 8 0)
             (mkWorld [] [Millisecond; Millisecond])).
    + lia.
    + reflexivity.
    + apply (Split_calls_reachable (timely TwitterEpoch) (tick 7 0) 4096
               (split_at 0 0) (split_at 0 0) (split_at 7 4095)).
      * apply timely_ticks. reflexivity.
      * apply Split_reach_new.
      * vm_compute; reflexivity.
    + apply timely_ticks. reflexivity.
    + reflexivity.
    + vm_compute; reflexivity.
Defined.
